(** * The fetch-url task orchestrator: submit, watch with deadline, extract, clean up

    A shallow embedding of the two [fetch-url] tool handlers (the single-pod
    variant and the job variant) and of the worker script [fetcher.js].

    The handlers are asynchronous JavaScript.  The cluster client, the watch
    client and the Node timer are external; they are modelled as a [World]
    that answers each request and delivers a timed sequence of callbacks.
    Everything the handler itself does (its closure variables, the order of
    its requests, what it returns or throws) is translated from the source.
    Console logging is left out. *)

From stdpp Require Import base option list strings gmap pretty.

Open Scope string_scope.
Open Scope list_scope.

(** ** JavaScript values the handlers manipulate *)

(** An error object: [name] and [message] as on [Error.prototype], and the
    [type] field that the watch callback inspects ([err?.type]). *)
Record JsError := {
  err_name : string;
  err_message : string;
  err_type : option string
}.

(** [new Error(msg)] *)
Definition Error (msg : string) : JsError :=
  {| err_name := "Error"; err_message := msg; err_type := None |}.

(** [Error.prototype.toString], used by the template literal [`${err}`]. *)
Definition toString (e : JsError) : string :=
  if decide (err_name e = "") then err_message e
  else if decide (err_message e = "") then err_name e
  else err_name e +:+ ": " +:+ err_message e.

(** A value passed to [reject] or thrown: an error object, or [None] for
    [null]/[undefined] (the watch's done callback may be called without an
    error). *)
Definition Thrown := option JsError.

(** The result of awaiting a cluster request. *)
Inductive Awaited (A : Type) :=
  | fulfilled (a : A)
  | rejected (e : JsError).
Arguments fulfilled {A} a.
Arguments rejected {A} e.

(** ** Cluster objects *)

Record V1ObjectMeta := { name : string }.
Record V1PodStatus := { phase : option string }.

(** The snapshot handed to the watch callback.  The callback reads
    [pod.metadata.name] unguarded and [pod.status?.phase] guarded, so the
    status and the phase are optional and the name is not. *)
Record V1Pod := {
  metadata : V1ObjectMeta;
  status : option V1PodStatus
}.

Record V1Container := {
  container_name : string;
  image : string;
  args : list string
}.

Record V1PodSpec := {
  restartPolicy : string;
  containers : list V1Container
}.

(** [podManifest] of the single-pod variant. *)
Record PodManifest := {
  pm_apiVersion : string;
  pm_kind : string;
  pm_name : string;
  pm_spec : V1PodSpec
}.

(** [jobManifest] of the job variant. *)
Record JobManifest := {
  jm_apiVersion : string;
  jm_kind : string;
  jm_name : string;
  jm_ttlSecondsAfterFinished : N;
  jm_backoffLimit : N;
  jm_template : V1PodSpec
}.

(** The handle that [watchClient.watch] resolves to. *)
Definition Request := N.

Inductive Selector :=
  | fieldSelector (s : string)
  | labelSelector (s : string).

(** ** Requests issued by a handler, in the order it issues them *)

Inductive Call :=
  | createNamespacedPod (namespace : string) (body : PodManifest)
  | createNamespacedJob (namespace : string) (body : JobManifest)
  | setTimeout (ms : N)
  | watch (path : string) (sel : Selector)
  | clearTimeout
  | abort (req : Request)
  | readNamespacedPodLog (pod namespace container : string)
  | deleteNamespacedPod (pod namespace : string).

Definition is_abort (c : Call) : bool :=
  match c with abort _ => true | _ => false end.
Definition is_delete (c : Call) : bool :=
  match c with deleteNamespacedPod _ _ => true | _ => false end.
Definition is_create (c : Call) : bool :=
  match c with createNamespacedPod _ _ | createNamespacedJob _ _ => true | _ => false end.
Definition is_read (c : Call) : bool :=
  match c with readNamespacedPodLog _ _ _ => true | _ => false end.
Definition timer_of (c : Call) : option N :=
  match c with setTimeout ms => Some ms | _ => None end.

(** ** The watch promise

    [await new Promise((resolve, reject) => { ... })]: the closure holds
    [requestRef], the [timeout] timer and (job variant) writes the handler's
    [podName]; [resolve] and [reject] act on the promise only while it is
    pending. *)

Inductive Timer := Armed | Cleared | Fired.
Inductive Promise := Pending | Fulfilled | Rejected (reason : Thrown).

Record Watching := {
  requestRef : option Request;
  timeout : Timer;
  promise : Promise;
  podName : string;
  calls : list Call
}.

Definition set_requestRef (r : option Request) (s : Watching) : Watching :=
  {| requestRef := r; timeout := timeout s; promise := promise s;
     podName := podName s; calls := calls s |}.
Definition set_timeout (t : Timer) (s : Watching) : Watching :=
  {| requestRef := requestRef s; timeout := t; promise := promise s;
     podName := podName s; calls := calls s |}.
Definition set_promise (p : Promise) (s : Watching) : Watching :=
  {| requestRef := requestRef s; timeout := timeout s; promise := p;
     podName := podName s; calls := calls s |}.
Definition set_podName (n : string) (s : Watching) : Watching :=
  {| requestRef := requestRef s; timeout := timeout s; promise := promise s;
     podName := n; calls := calls s |}.
Definition issue (c : Call) (s : Watching) : Watching :=
  {| requestRef := requestRef s; timeout := timeout s; promise := promise s;
     podName := podName s; calls := calls s ++ [c] |}.

(** [resolve()] *)
Definition resolve (s : Watching) : Watching :=
  match promise s with
  | Pending => set_promise Fulfilled s
  | _ => s
  end.

(** [reject(err)] *)
Definition reject (err : Thrown) (s : Watching) : Watching :=
  match promise s with
  | Pending => set_promise (Rejected err) s
  | _ => s
  end.

(** [clearTimeout(timeout)]: disarms the timer if it has not fired yet. *)
Definition do_clearTimeout (s : Watching) : Watching :=
  issue clearTimeout
    (match timeout s with Armed => set_timeout Cleared s | _ => s end).

(** [requestRef?.abort()] *)
Definition abort_requestRef (s : Watching) : Watching :=
  match requestRef s with
  | Some req => issue (abort req) s
  | None => s
  end.

(** The terminal-phase predicate
    [['Succeeded', 'Failed'].includes(phase || '')]. *)
Definition is_terminal (phase : option string) : bool :=
  bool_decide (default "" phase ∈ ["Succeeded"; "Failed"]).

(** [pod.status?.phase] *)
Definition phase_of (pod : V1Pod) : option string :=
  status pod ≫= phase.

(** The timer callback. *)
Definition on_timeout (s : Watching) : Watching :=
  reject (Some (Error "Timeout")) (abort_requestRef s).

(** The watch callback [(type, pod) => ...] of the single-pod variant. *)
Definition on_event_pod (type : string) (pod : V1Pod) (s : Watching) : Watching :=
  let phase := phase_of pod in
  if is_terminal phase
  then resolve (abort_requestRef (do_clearTimeout s))
  else s.

(** The watch callback of the job variant: it also assigns [podName]. *)
Definition on_event_job (type : string) (pod : V1Pod) (s : Watching) : Watching :=
  let phase := phase_of pod in
  let s := set_podName (name (metadata pod)) s in
  if is_terminal phase
  then resolve (abort_requestRef (do_clearTimeout s))
  else s.

(** The done callback [(err) => ...]: [err?.type !== 'aborted']. *)
Definition on_done (err : Thrown) (s : Watching) : Watching :=
  if decide (err ≫= err_type ≠ Some "aborted")
  then reject err (do_clearTimeout s)
  else s.

(** [.then(req => { requestRef = req; ... })] *)
Definition on_then (req : Request) (s : Watching) : Watching :=
  set_requestRef (Some req) s.

(** [.catch(reject)] *)
Definition on_catch (err : Thrown) (s : Watching) : Watching :=
  reject err s.

(** What the cluster side can make happen to a running watch. *)
Inductive ClusterEvent :=
  | WatchReady (req : Request)          (* watch(...) fulfilled with the handle *)
  | WatchFailed (err : Thrown)          (* watch(...) rejected *)
  | PodEvent (type : string) (pod : V1Pod)
  | StreamDone (err : Thrown).

Inductive Event :=
  | TimerExpired
  | FromCluster (e : ClusterEvent).

Definition Callback := string -> V1Pod -> Watching -> Watching.

(** One turn of the event loop.  A timer that was cleared (or already fired)
    never runs its callback. *)
Definition step (on_event : Callback) (s : Watching) (ev : Event) : Watching :=
  match ev with
  | TimerExpired =>
      match timeout s with
      | Armed => on_timeout (set_timeout Fired s)
      | _ => s
      end
  | FromCluster (WatchReady req) => on_then req s
  | FromCluster (WatchFailed err) => on_catch err s
  | FromCluster (PodEvent type pod) => on_event type pod s
  | FromCluster (StreamDone err) => on_done err s
  end.

(** The cluster's callbacks come with the time (in ms) elapsed since the
    previous one; the timer armed for [delay] ms runs before the first
    callback that is due at or after the deadline, and at the latest when
    the cluster has gone silent. *)
Fixpoint schedule (delay elapsed : N) (tr : list (N * ClusterEvent)) : list Event :=
  match tr with
  | [] => [TimerExpired]
  | (gap, e) :: tr' =>
      if decide (delay ≤ elapsed + gap)%N
      then TimerExpired :: map FromCluster (e :: map snd tr')
      else FromCluster e :: schedule delay (elapsed + gap) tr'
  end.

(** The cluster events that are delivered before the deadline. *)
Fixpoint within (delay elapsed : N) (tr : list (N * ClusterEvent)) : list ClusterEvent :=
  match tr with
  | [] => []
  | (gap, e) :: tr' =>
      if decide (delay ≤ elapsed + gap)%N
      then []
      else e :: within delay (elapsed + gap) tr'
  end.

(** [await]: run the event loop from a pending promise until some callback
    settles it; the continuation of the handler runs next.  The result is
    the event whose callback settled the promise and the closure's state at
    that point; [None] would be a promise that stays pending for ever. *)
Fixpoint await (on_event : Callback) (evs : list Event) (s : Watching)
    : option (Event * Watching) :=
  match evs with
  | [] => None
  | ev :: evs' =>
      let s' := step on_event s ev in
      match promise s' with
      | Pending => await on_event evs' s'
      | _ => Some (ev, s')
      end
  end.

(** ** The world a handler runs in *)

Record World := {
  (** outcome of the create request: [None] when it is accepted *)
  create_result : option JsError;
  (** what the watch delivers: (ms since the previous callback, callback) *)
  events : list (N * ClusterEvent);
  (** outcome of [readNamespacedPodLog({name, namespace, container})] *)
  pod_log : string -> string -> string -> Awaited string;
  (** outcome of [deleteNamespacedPod({name, namespace})]; the handler only
      logs a failure *)
  delete_result : string -> string -> option JsError
}.

(** The tool response [{ content: [{ type: 'text', text: html }] }]. *)
Record Content := { type : string; text : string }.
Record ToolResult := { content : list Content }.

Inductive Outcome :=
  | Returns (r : ToolResult)
  | Throws (err : Thrown)
  | Hangs.

Record Run := {
  issued : list Call;
  outcome : Outcome
}.

Definition count (p : Call -> bool) (r : Run) : nat :=
  length (filter (fun c => p c = true) (issued r)).

(** [try { html = await readNamespacedPodLog(...) }
     catch (err) { html = `Error retrieving logs: ${err}` }] *)
Definition html_of (read : Awaited string) : string :=
  match read with
  | fulfilled logs => logs
  | rejected err => "Error retrieving logs: " +:+ toString err
  end.

(** [{ content: [{ type: 'text', text: html }] }] *)
Definition text_result (html : string) : ToolResult :=
  {| content := [ {| type := "text"; text := html |} ] |}.

(** ** The handlers *)

Section Handlers.

(** [process.env] when the module is loaded *)
Variable env : gmap string string.

(** [const NAMESPACE = process.env.K8S_NAMESPACE || 'default'] *)
Definition NAMESPACE : string :=
  match env !! "K8S_NAMESPACE" with
  | Some v => if decide (v = "") then "default" else v
  | None => "default"
  end.

Definition podManifest (podName url : string) : PodManifest :=
  {| pm_apiVersion := "v1";
     pm_kind := "Pod";
     pm_name := podName;
     pm_spec := {| restartPolicy := "Never";
                   containers := [ {| container_name := "fetcher";
                                      image := "dardanisufi95/puppeteer-fetcher:latest";
                                      args := [url] |} ] |} |}.

Definition jobManifest (jobName url : string) : JobManifest :=
  {| jm_apiVersion := "batch/v1";
     jm_kind := "Job";
     jm_name := jobName;
     jm_ttlSecondsAfterFinished := 60;
     jm_backoffLimit := 0;
     jm_template := {| restartPolicy := "Never";
                       containers := [ {| container_name := "fetcher";
                                          image := "dardanisufi95/puppeteer-fetcher:latest";
                                          args := [url] |} ] |} |}.

(** [`fetch-pod-${Date.now()}`] and [`fetch-job-${Date.now()}`] *)
Definition pod_name_at (now : N) : string := "fetch-pod-" +:+ pretty now.
Definition job_name_at (now : N) : string := "fetch-job-" +:+ pretty now.

(** The closure of the watch promise once its executor has run: the
    timer is armed and the watch request is on its way. *)
Definition watching_pod (podName url : string) : Watching :=
  {| requestRef := None; timeout := Armed; promise := Pending;
     podName := podName;
     calls := [ createNamespacedPod NAMESPACE (podManifest podName url);
                setTimeout (5 * 60 * 1000);
                watch ("/api/v1/namespaces/" +:+ NAMESPACE +:+ "/pods")
                      (fieldSelector ("metadata.name=" +:+ podName)) ] |}.

Definition watching_job (jobName url : string) : Watching :=
  {| requestRef := None; timeout := Armed; promise := Pending;
     podName := "";
     calls := [ createNamespacedJob NAMESPACE (jobManifest jobName url);
                setTimeout (5 * 60 * 1000);
                watch ("/api/v1/namespaces/" +:+ NAMESPACE +:+ "/pods")
                      (labelSelector ("job-name=" +:+ jobName)) ] |}.

(** The [fetch-url] handler of the single-pod variant; [now] is the value
    [Date.now()] returns when the handler starts. *)
Definition fetch_url_pod (now : N) (url : string) (w : World) : Run :=
  let podName := pod_name_at now in
  let create := createNamespacedPod NAMESPACE (podManifest podName url) in
  match create_result w with
  | Some err => {| issued := [create]; outcome := Throws (Some err) |}
  | None =>
      let s0 := watching_pod podName url in
      match await on_event_pod (schedule (5 * 60 * 1000) 0 (events w)) s0 with
      | None => {| issued := calls s0; outcome := Hangs |}
      | Some (_, s) =>
          match promise s with
          | Pending => {| issued := calls s; outcome := Hangs |}
          | Rejected err => {| issued := calls s; outcome := Throws err |}
          | Fulfilled =>
              let html := html_of (pod_log w podName NAMESPACE "fetcher") in
              {| issued := calls s ++
                   [ readNamespacedPodLog podName NAMESPACE "fetcher";
                     deleteNamespacedPod podName NAMESPACE ];
                 outcome := Returns (text_result html) |}
          end
      end
  end.

(** The [fetch-url] handler of the job variant: [podName] starts empty and
    is assigned by the watch callback; the deletion is commented out. *)
Definition fetch_url_job (now : N) (url : string) (w : World) : Run :=
  let jobName := job_name_at now in
  let create := createNamespacedJob NAMESPACE (jobManifest jobName url) in
  match create_result w with
  | Some err => {| issued := [create]; outcome := Throws (Some err) |}
  | None =>
      let s0 := watching_job jobName url in
      match await on_event_job (schedule (5 * 60 * 1000) 0 (events w)) s0 with
      | None => {| issued := calls s0; outcome := Hangs |}
      | Some (_, s) =>
          match promise s with
          | Pending => {| issued := calls s; outcome := Hangs |}
          | Rejected err => {| issued := calls s; outcome := Throws err |}
          | Fulfilled =>
              let html := html_of (pod_log w (podName s) NAMESPACE "fetcher") in
              {| issued := calls s ++
                   [ readNamespacedPodLog (podName s) NAMESPACE "fetcher" ];
                 outcome := Returns (text_result html) |}
          end
      end
  end.

End Handlers.

(** ** The worker, [fetcher.js] *)

Module Fetcher.

(** The headless browser: the page content after launch, [goto] and
    [content()], or the error one of them throws; and whether [close]
    throws. *)
Record Browser := {
  page_content : string -> Awaited string;
  close : option JsError
}.

Record Exit := { stdout : string; code : N }.

Definition newline : string := String (Ascii.ascii_of_N 10) "".

(** [fetchUrl(url)]: what it wrote to stdout, and whether it threw. *)
Definition fetchUrl (b : Browser) (url : string) : string * option JsError :=
  match page_content b url with
  | rejected err => ("", Some err)
  | fulfilled content => (content +:+ newline, close b)
  end.

(** The script body: [process.argv[2]], [process.exit]. *)
Definition main (b : Browser) (argv : list string) : Exit :=
  match argv !! 2%nat with
  | None => {| stdout := ""; code := 1 |}
  | Some url =>
      if decide (url = "") then {| stdout := ""; code := 1 |}
      else match fetchUrl b url with
           | (out, None) => {| stdout := out; code := 0 |}
           | (out, Some _) => {| stdout := out; code := 1 |}
           end
  end.

(** [ENTRYPOINT ["node", "fetcher.js"]] followed by the container's args. *)
Definition argv_of (c : V1Container) : list string :=
  ["node"; "fetcher.js"] ++ args c.

End Fetcher.

(** * Vocabulary for the properties *)

(** The two watch callbacks differ only in what they store in [podName]
    before applying the terminal-phase test. *)
Class WatchCallback (cb : Callback) := {
  observed : V1Pod -> string -> string;
  cb_spec : forall ty pod s,
    cb ty pod s = on_event_pod ty pod (set_podName (observed pod (podName s)) s)
}.

#[export] Instance pod_callback : WatchCallback on_event_pod.
Proof. exists (fun _ n => n). intros ty pod []. reflexivity. Defined.

#[export] Instance job_callback : WatchCallback on_event_job.
Proof. exists (fun pod _ => name (metadata pod)). reflexivity. Defined.

(** Which cluster callbacks settle a pending promise. *)
Definition settles (e : ClusterEvent) : bool :=
  match e with
  | WatchReady _ => false
  | WatchFailed _ => true
  | PodEvent _ pod => is_terminal (phase_of pod)
  | StreamDone err => bool_decide (err ≫= err_type ≠ Some "aborted")
  end.

(** The handle the closure holds after a run of callbacks. *)
Definition handle_after (pre : list ClusterEvent) (r : option Request) : option Request :=
  foldl (fun r e => match e with WatchReady req => Some req | _ => r end) r pre.

(** A pending promise has an armed timer: the timer is cleared or fires
    only in a callback that also settles the promise. *)
Definition timer_guards (s : Watching) : Prop :=
  promise s = Pending -> timeout s = Armed.

Definition aborts_of (l : list Call) : list Call := filter (fun c => is_abort c = true) l.
Definition deletes_of (l : list Call) : list Call := filter (fun c => is_delete c = true) l.
Definition creates_of (l : list Call) : list Call := filter (fun c => is_create c = true) l.
Definition reads_of (l : list Call) : list Call := filter (fun c => is_read c = true) l.
Definition timers_of (l : list Call) : list N := omap timer_of l.

(** The name the closure holds after a run of callbacks. *)
Definition name_after (cb : Callback) `{!WatchCallback cb}
    (pre : list ClusterEvent) (n : string) : string :=
  foldl (fun n e => match e with
                    | PodEvent _ pod => observed pod n
                    | _ => n
                    end) n pre.

(** The requests a settling callback adds when it cancels the watch. *)
Definition cancel_of (r : option Request) : list Call :=
  match r with Some req => [abort req] | None => [] end.

(** What each callback has done when it settles a pending promise whose
    timer is armed. *)
Definition settled_by (cb : Callback) `{!WatchCallback cb}
    (s : Watching) (ev : Event) (s' : Watching) : Prop :=
  requestRef s' = requestRef s /\
  match ev with
  | TimerExpired =>
      promise s' = Rejected (Some (Error "Timeout")) /\
      calls s' = calls s ++ cancel_of (requestRef s) /\
      podName s' = podName s
  | FromCluster (PodEvent _ pod) =>
      is_terminal (phase_of pod) = true /\
      promise s' = Fulfilled /\
      calls s' = calls s ++ clearTimeout :: cancel_of (requestRef s) /\
      podName s' = observed pod (podName s)
  | FromCluster (StreamDone err) =>
      err ≫= err_type ≠ Some "aborted" /\
      promise s' = Rejected err /\
      calls s' = calls s ++ [clearTimeout] /\
      podName s' = podName s
  | FromCluster (WatchFailed err) =>
      promise s' = Rejected err /\
      calls s' = calls s /\
      podName s' = podName s
  | FromCluster (WatchReady _) => False
  end.

(** The requests the callbacks of the watch promise can issue. *)
Definition by_watch (c : Call) : bool :=
  match c with clearTimeout | abort _ => true | _ => false end.

Definition quiet (l : list ClusterEvent) : Prop :=
  Forall (fun e => settles e = false) l.

(** Before the deadline the watch of [w] delivers callbacks [pre] that do
    not settle the promise, and then a pod event in a terminal phase. *)
Definition terminal_in_time (w : World) (pre : list ClusterEvent)
    (ty : string) (pod : V1Pod) : Prop :=
  (exists post, within (5 * 60 * 1000) 0 (events w) = pre ++ PodEvent ty pod :: post) /\
  quiet pre /\
  is_terminal (phase_of pod) = true.

(** Nothing that is delivered before the deadline settles the promise. *)
Definition deadline_passes (w : World) : Prop :=
  quiet (within (5 * 60 * 1000) 0 (events w)).

(** Before the deadline the stream ends with an error that is not the
    echo of an abort. *)
Definition stream_fails (w : World) (pre : list ClusterEvent) (err : Thrown) : Prop :=
  (exists post, within (5 * 60 * 1000) 0 (events w) = pre ++ StreamDone err :: post) /\
  quiet pre /\
  err ≫= err_type ≠ Some "aborted".

(** The names carried by the pod events of a stream, in order. *)
Definition observed_names (tr : list (N * ClusterEvent)) : list string :=
  omap (fun te => match snd te with
                  | PodEvent _ pod => Some (name (metadata pod))
                  | _ => None
                  end) tr.

(** The names of the descriptors a run submits. *)
Definition descriptor_names (r : Run) : list string :=
  omap (fun c => match c with
                 | createNamespacedPod _ body => Some (pm_name body)
                 | createNamespacedJob _ body => Some (jm_name body)
                 | _ => None
                 end) (issued r).

(** Two calls in flight at once.  A handler has no module-level variable it
    writes: [requestRef], [timeout], the promise and [podName] are created
    by each call, and every callback a call registers closes over its own.
    The event loop runs one callback at a time, on the closure of the call
    that registered it. *)
Inductive Owner := first_call | second_call.

Definition step_pair (cb1 cb2 : Callback) (st : Watching * Watching)
    (oe : Owner * Event) : Watching * Watching :=
  match oe with
  | (first_call, ev) => (step cb1 (fst st) ev, snd st)
  | (second_call, ev) => (fst st, step cb2 (snd st) ev)
  end.

Definition events_of (o : Owner) (tr : list (Owner * Event)) : list Event :=
  omap (fun oe => match o, fst oe with
                  | first_call, first_call | second_call, second_call => Some (snd oe)
                  | _, _ => None
                  end) tr.

(** * Worlds used to exercise the handlers *)

Definition pod_in (n : string) (ph : option string) : V1Pod :=
  {| metadata := {| name := n |}; status := Some {| phase := ph |} |}.

Definition pod_without_status (n : string) : V1Pod :=
  {| metadata := {| name := n |}; status := None |}.

Definition page : string := "<html>...</html>".

(** The unit is scheduled, runs and succeeds after 11.44 s. *)
Definition world_succeeds : World :=
  {| create_result := None;
     events := [ (40%N, WatchReady 1%N);
                 (900%N, PodEvent "ADDED" (pod_in "fetch-pod-1700000000000" (Some "Pending")));
                 (2500%N, PodEvent "MODIFIED" (pod_in "fetch-pod-1700000000000" (Some "Running")));
                 (8000%N, PodEvent "MODIFIED" (pod_in "fetch-pod-1700000000000" (Some "Succeeded"))) ];
     pod_log := fun _ _ _ => fulfilled page;
     delete_result := fun _ _ => None |}.

(** The worker exits with a non-zero status after writing some output. *)
Definition world_fails : World :=
  {| create_result := None;
     events := [ (40%N, WatchReady 1%N);
                 (900%N, PodEvent "ADDED" (pod_in "fetch-pod-1700000000000" (Some "Pending")));
                 (2500%N, PodEvent "MODIFIED" (pod_in "fetch-pod-1700000000000" (Some "Failed"))) ];
     pod_log := fun _ _ _ => fulfilled "Error fetching URL";
     delete_result := fun _ _ => None |}.

(** The unit stays pending; a terminal phase shows up only after 6 min 41 s. *)
Definition world_stuck : World :=
  {| create_result := None;
     events := [ (40%N, WatchReady 1%N);
                 (900%N, PodEvent "ADDED" (pod_in "fetch-pod-1700000000000" (Some "Pending")));
                 (400000%N, PodEvent "MODIFIED" (pod_in "fetch-pod-1700000000000" (Some "Succeeded"))) ];
     pod_log := fun _ _ _ => fulfilled page;
     delete_result := fun _ _ => None |}.

Definition forbidden : JsError :=
  {| err_name := "Error"; err_message := "HTTP-Code: 403"; err_type := None |}.

(** The scheduler rejects the create request. *)
Definition world_forbidden : World :=
  {| create_result := Some forbidden;
     events := [];
     pod_log := fun _ _ _ => fulfilled page;
     delete_result := fun _ _ => None |}.

(** The watch stream breaks while the unit is still pending. *)
Definition world_stream_breaks : World :=
  {| create_result := None;
     events := [ (40%N, WatchReady 1%N);
                 (900%N, PodEvent "ADDED" (pod_in "fetch-pod-1700000000000" (Some "Pending")));
                 (1000%N, StreamDone (Some (Error "socket hang up"))) ];
     pod_log := fun _ _ _ => fulfilled page;
     delete_result := fun _ _ => None |}.

Definition not_found : JsError :=
  {| err_name := "Error"; err_message := "HTTP-Code: 404"; err_type := None |}.

(** The unit succeeds but its log can no longer be read. *)
Definition world_log_gone : World :=
  {| create_result := None;
     events := events world_succeeds;
     pod_log := fun _ _ _ => rejected not_found;
     delete_result := fun _ _ => None |}.

(** A job whose first pod is replaced by a second one, which succeeds. *)
Definition world_two_pods : World :=
  {| create_result := None;
     events := [ (40%N, WatchReady 1%N);
                 (900%N, PodEvent "ADDED" (pod_in "fetch-job-5-abcde" (Some "Pending")));
                 (900%N, PodEvent "ADDED" (pod_in "fetch-job-5-fghij" (Some "Pending")));
                 (7000%N, PodEvent "MODIFIED" (pod_in "fetch-job-5-fghij" (Some "Succeeded"))) ];
     pod_log := fun n _ _ => fulfilled ("log of " +:+ n);
     delete_result := fun _ _ => None |}.

(** An environment that sets the namespace and, in vain, a timeout. *)
Definition env_short : gmap string string :=
  <["K8S_NAMESPACE" := "jobs"]> (<["WATCH_TIMEOUT_MS" := "1000"]> ∅).

(** * Properties of the watch promise *)

Ltac unfold_callbacks :=
  unfold on_timeout, on_event_pod, on_done, on_then, on_catch, resolve, reject,
    abort_requestRef, do_clearTimeout, issue, set_promise, set_timeout,
    set_requestRef, set_podName in *; simpl in *.

Section WatchPromise.

Context (cb : Callback) `{!WatchCallback cb}.

Lemma step_timer_guards s ev :
  timer_guards s -> timer_guards (step cb s ev).
Proof.
  unfold timer_guards. destruct s as [[r|] [] p n c].
  all: destruct ev as [|[req|err|ty pod|err]]; simpl; try rewrite cb_spec.
  all: unfold_callbacks; intros Hg.
  all: repeat (case_match; simpl in *; subst; try done); auto.
Qed.

(** Exactly the callbacks selected by [settles] settle a pending promise. *)
Lemma step_pending s e :
  promise s = Pending ->
  promise (step cb s (FromCluster e)) = Pending <-> settles e = false.
Proof.
  destruct s as [[r|] [] p n c]; simpl; intros ->.
  all: destruct e as [req|err|ty pod|err]; simpl; try rewrite cb_spec.
  all: unfold_callbacks; try done.
  all: try (destruct (is_terminal (phase_of pod)); simpl; split; done).
  all: rewrite bool_decide_eq_false; destruct (decide _); simpl; split; try done.
  all: intros Hn; by destruct Hn.
Qed.

(** A callback that does not settle the promise issues no request and
    leaves the timer alone. *)
Lemma step_quiet s e :
  settles e = false ->
  let s' := step cb s (FromCluster e) in
  promise s' = promise s /\ timeout s' = timeout s /\ calls s' = calls s /\
  requestRef s' = handle_after [e] (requestRef s) /\
  podName s' = match e with
               | PodEvent _ pod => observed pod (podName s)
               | _ => podName s
               end.
Proof.
  destruct s as [r t p n c].
  destruct e as [req|err|ty pod|err]; simpl; try rewrite cb_spec;
    unfold_callbacks; try done.
  - intros ->. done.
  - rewrite bool_decide_eq_false. destruct (decide _); done.
Qed.

Lemma await_cons ev evs s :
  await cb (ev :: evs) s =
  match promise (step cb s ev) with
  | Pending => await cb evs (step cb s ev)
  | _ => Some (ev, step cb s ev)
  end.
Proof. reflexivity. Qed.

Lemma await_quiet pre rest s :
  Forall (fun e => settles e = false) pre ->
  promise s = Pending ->
  exists s',
    await cb (map FromCluster pre ++ rest) s = await cb rest s' /\
    promise s' = Pending /\ timeout s' = timeout s /\ calls s' = calls s /\
    requestRef s' = handle_after pre (requestRef s) /\
    podName s' = name_after cb pre (podName s).
Proof.
  intros Hq. revert s. induction Hq as [|e pre He _ IH]; intros s Hp.
  - exists s. done.
  - destruct (step_quiet s e He) as (Hp' & Ht & Hc & Hr & Hn).
    destruct (IH (step cb s (FromCluster e))) as (s' & Ha & Hq1 & Hq2 & Hq3 & Hq4 & Hq5);
      [congruence|].
    exists s'. rewrite map_cons, <- app_comm_cons, await_cons.
    rewrite Hp', Hp, Ha, Hq2, Hq3, Hq4, Hq5, Ht, Hc, Hr, Hn.
    done.
Qed.

Lemma settle_step s ev :
  promise s = Pending -> timeout s = Armed ->
  promise (step cb s ev) <> Pending ->
  settled_by cb s ev (step cb s ev).
Proof.
  unfold settled_by.
  destruct s as [[r|] t p n c]; simpl; intros -> ->.
  all: destruct ev as [|[req|err|ty pod|err]]; simpl; try rewrite cb_spec.
  all: unfold_callbacks.
  all: try destruct (is_terminal (phase_of pod)); try destruct (decide _).
  all: simpl; intros Hs; repeat split; try done.
  all: by rewrite <- ?app_assoc, ?app_nil_r.
Qed.

Lemma settled_by_settled s ev s' : settled_by cb s ev s' -> promise s' <> Pending.
Proof.
  intros (_ & Hs). destruct ev as [|[req|err|ty pod|err]]; [| done | | |].
  - by destruct Hs as (-> & _).
  - by destruct Hs as (-> & _).
  - by destruct Hs as (_ & -> & _).
  - by destruct Hs as (_ & -> & _).
Qed.

(** The timer callback always settles a pending promise. *)
Lemma timer_settles s :
  promise s = Pending -> timeout s = Armed ->
  promise (step cb s TimerExpired) <> Pending.
Proof.
  destruct s as [[r|] t p n c]; simpl; intros -> ->; unfold_callbacks; done.
Qed.

(** [await] returns as soon as the timer callback is reached: the watch
    promise cannot stay pending. *)
Lemma await_total evs s :
  timer_guards s -> promise s = Pending -> In TimerExpired evs ->
  exists ev s', await cb evs s = Some (ev, s').
Proof.
  revert s. induction evs as [|ev evs IH]; intros s Hg Hp Hin; [done|].
  rewrite await_cons.
  destruct (promise (step cb s ev)) eqn:Hs; eauto.
  destruct Hin as [->|Hin].
  - exfalso. by apply (timer_settles s); auto.
  - apply IH; auto using step_timer_guards.
Qed.

(** How [await] got to its result: callbacks that do not settle, then the
    one that does. *)
Lemma await_inv evs s ev s' :
  timer_guards s -> promise s = Pending ->
  await cb evs s = Some (ev, s') ->
  exists pre post s1,
    evs = map FromCluster pre ++ ev :: post /\
    Forall (fun e => settles e = false) pre /\
    promise s1 = Pending /\ timeout s1 = Armed /\
    calls s1 = calls s /\
    requestRef s1 = handle_after pre (requestRef s) /\
    podName s1 = name_after cb pre (podName s) /\
    settled_by cb s1 ev s'.
Proof.
  revert s. induction evs as [|e evs IH]; intros s Hg Hp Ha; [done|].
  rewrite await_cons in Ha.
  destruct (promise (step cb s e)) eqn:Hs.
  - destruct e as [|e].
    { exfalso. by apply (timer_settles s); auto. }
    assert (Hq : settles e = false) by (by apply (step_pending s)).
    destruct (step_quiet s e Hq) as (_ & Ht & Hc & Hr & Hn).
    destruct (IH _ (step_timer_guards s _ Hg) Hs Ha)
      as (pre & post & s1 & -> & Hpre & H1 & H2 & H3 & H4 & H5 & H6).
    exists (e :: pre), post, s1. rewrite H3, H4, H5, Hc, Hr, Hn.
    repeat (split; [by auto|]). exact H6.
  - inversion Ha; subst. exists [], evs, s.
    repeat (split; [by auto|]). apply settle_step; auto; congruence.
  - inversion Ha; subst. exists [], evs, s.
    repeat (split; [by auto|]). apply settle_step; auto; congruence.
Qed.

(** Forward direction: callbacks that do not settle, followed by one that
    does. *)
Lemma await_settle pre ev rest s :
  Forall (fun e => settles e = false) pre ->
  promise s = Pending -> timeout s = Armed ->
  (ev = TimerExpired \/ exists e, ev = FromCluster e /\ settles e = true) ->
  exists s1 s',
    await cb (map FromCluster pre ++ ev :: rest) s = Some (ev, s') /\
    promise s' <> Pending /\
    calls s1 = calls s /\
    requestRef s1 = handle_after pre (requestRef s) /\
    podName s1 = name_after cb pre (podName s) /\
    settled_by cb s1 ev s'.
Proof.
  intros Hq Hp Ht Hev.
  destruct (await_quiet pre (ev :: rest) s Hq Hp) as (s1 & Ha & H1 & H2 & H3 & H4 & H5).
  assert (Hs : promise (step cb s1 ev) <> Pending).
  { destruct Hev as [->|(e & -> & He)].
    - apply timer_settles; congruence.
    - intros Hn. apply step_pending in Hn; congruence. }
  exists s1, (step cb s1 ev). rewrite Ha, await_cons.
  split; [by destruct (promise (step cb s1 ev))|].
  repeat (split; [by auto|]). apply settle_step; congruence.
Qed.

End WatchPromise.

(** ** The timer and the cluster's callbacks on one time line *)

Lemma schedule_within delay elapsed tr :
  exists late,
    schedule delay elapsed tr =
    map FromCluster (within delay elapsed tr) ++ TimerExpired :: map FromCluster late.
Proof.
  revert elapsed. induction tr as [|[gap e] tr IH]; intros elapsed; simpl.
  - by exists [].
  - destruct (decide _).
    + by exists (e :: map snd tr).
    + destruct (IH (elapsed + gap)%N) as [late ->]. by exists late.
Qed.

Lemma schedule_timer delay elapsed tr : In TimerExpired (schedule delay elapsed tr).
Proof.
  destruct (schedule_within delay elapsed tr) as [late ->].
  apply in_or_app. right. by left.
Qed.

(** A cluster callback that runs while only cluster callbacks have run
    before it was delivered before the deadline. *)
Lemma before_timer (a pre : list ClusterEvent) e (late post : list Event) :
  map FromCluster a ++ TimerExpired :: late = map FromCluster pre ++ FromCluster e :: post ->
  exists post', a = pre ++ e :: post'.
Proof.
  revert pre. induction a as [|x a IH]; intros [|y pre]; simpl; intros Heq;
    try discriminate.
  - injection Heq as -> _. by exists a.
  - injection Heq as -> Heq. destruct (IH _ Heq) as [post' ->]. by exists post'.
Qed.

(** If the timer callback is the first to settle, no cluster callback
    delivered before the deadline did. *)
Lemma timer_first (a pre : list ClusterEvent) (late post : list Event) :
  map FromCluster a ++ TimerExpired :: late = map FromCluster pre ++ TimerExpired :: post ->
  a = pre.
Proof.
  revert pre. induction a as [|x a IH]; intros [|y pre]; simpl; intros Heq;
    try discriminate; [done|].
  injection Heq as -> Heq. f_equal. by apply IH.
Qed.

(** * Properties of the handlers *)

Lemma by_watch_filters extra :
  Forall (fun c => by_watch c = true) extra ->
  creates_of extra = [] /\ deletes_of extra = [] /\ reads_of extra = [] /\
  timers_of extra = [].
Proof.
  induction 1 as [|c extra Hc _ (IH1 & IH2 & IH3 & IH4)]; [done|].
  destruct c; try discriminate Hc.
  all: unfold creates_of, deletes_of, reads_of, timers_of in *.
  all: rewrite !filter_cons; simpl.
  all: by repeat (destruct (decide _); try discriminate).
Qed.

Section Settling.

Context (cb : Callback) `{!WatchCallback cb}.
Variables (s0 : Watching) (tr : list (N * ClusterEvent)) (delay : N).
Hypothesis pending0 : promise s0 = Pending.
Hypothesis armed0 : timeout s0 = Armed.

(** The watch promise always settles, and this is how: the callbacks
    delivered before the settling one did not settle; the settling one is
    the timer callback exactly when nothing delivered before the deadline
    settled. *)
Lemma watch_settles :
  exists ev s' pre s1,
    await cb (schedule delay 0 tr) s0 = Some (ev, s') /\
    quiet pre /\
    calls s1 = calls s0 /\
    requestRef s1 = handle_after pre (requestRef s0) /\
    podName s1 = name_after cb pre (podName s0) /\
    settled_by cb s1 ev s' /\
    match ev with
    | TimerExpired => within delay 0 tr = pre
    | FromCluster e => exists post, within delay 0 tr = pre ++ e :: post
    end.
Proof.
  assert (Hg : timer_guards s0) by (by intros _).
  destruct (await_total cb (schedule delay 0 tr) s0 Hg pending0
              (schedule_timer delay 0 tr)) as (ev & s' & Ha).
  destruct (await_inv cb _ _ _ _ Hg pending0 Ha)
    as (pre & post & s1 & Hs & Hq & _ & _ & H3 & H4 & H5 & H6).
  exists ev, s', pre, s1. repeat (split; [by auto|]).
  destruct (schedule_within delay 0 tr) as [late Hl]. rewrite Hl in Hs.
  destruct ev as [|e].
  - by apply timer_first in Hs.
  - by apply before_timer in Hs.
Qed.

(** While it runs, the watch promise issues only [clearTimeout] and
    [abort]. *)
Lemma watch_calls ev s' :
  await cb (schedule delay 0 tr) s0 = Some (ev, s') ->
  exists extra,
    calls s' = calls s0 ++ extra /\ Forall (fun c => by_watch c = true) extra.
Proof.
  intros Ha.
  destruct (await_inv cb _ _ _ _ (fun _ => armed0) pending0 Ha)
    as (pre & post & s1 & _ & _ & _ & _ & H3 & _ & _ & (_ & H6)).
  rewrite <- H3.
  destruct ev as [|[req|err|ty pod|err]]; [| done | | |].
  - destruct H6 as (_ & -> & _). eexists; split; [done|].
    destruct (requestRef s1); repeat constructor.
  - destruct H6 as (_ & -> & _). exists []. by rewrite app_nil_r.
  - destruct H6 as (_ & _ & -> & _). eexists; split; [done|].
    destruct (requestRef s1); repeat constructor.
  - destruct H6 as (_ & _ & -> & _). eexists; split; [done|].
    repeat constructor.
Qed.

End Settling.

Section Runs.

Variable env : gmap string string.
Variables (now : N) (url : string) (w : World).
Hypothesis created : create_result w = None.

Let ns := NAMESPACE env.

Lemma pod_run_terminal pre ty pod :
  terminal_in_time w pre ty pod ->
  fetch_url_pod env now url w =
  {| issued := calls (watching_pod env (pod_name_at now) url) ++
               clearTimeout :: cancel_of (handle_after pre None) ++
               [ readNamespacedPodLog (pod_name_at now) ns "fetcher";
                 deleteNamespacedPod (pod_name_at now) ns ];
     outcome := Returns (text_result (html_of (pod_log w (pod_name_at now) ns "fetcher"))) |}.
Proof.
  intros ((post & Hw) & Hq & Ht).
  unfold fetch_url_pod. rewrite created. cbv zeta.
  destruct (schedule_within (5 * 60 * 1000) 0 (events w)) as [late ->].
  rewrite Hw, map_app, <- app_assoc, map_cons, <- app_comm_cons.
  edestruct (await_settle on_event_pod pre (FromCluster (PodEvent ty pod)))
    as (s1 & s' & -> & _ & H1 & H2 & _ & _ & _ & Hp & Hc & _);
    [exact Hq|reflexivity|reflexivity|right; eauto|].
  rewrite Hp, Hc, H1, H2. f_equal; by rewrite <- ?app_assoc.
Qed.

Lemma job_run_terminal pre ty pod :
  terminal_in_time w pre ty pod ->
  fetch_url_job env now url w =
  {| issued := calls (watching_job env (job_name_at now) url) ++
               clearTimeout :: cancel_of (handle_after pre None) ++
               [ readNamespacedPodLog (name (metadata pod)) ns "fetcher" ];
     outcome := Returns (text_result (html_of (pod_log w (name (metadata pod)) ns "fetcher"))) |}.
Proof.
  intros ((post & Hw) & Hq & Ht).
  unfold fetch_url_job. rewrite created. cbv zeta.
  destruct (schedule_within (5 * 60 * 1000) 0 (events w)) as [late ->].
  rewrite Hw, map_app, <- app_assoc, map_cons, <- app_comm_cons.
  edestruct (await_settle on_event_job pre (FromCluster (PodEvent ty pod)))
    as (s1 & s' & -> & _ & H1 & H2 & _ & _ & _ & Hp & Hc & Hn);
    [exact Hq|reflexivity|reflexivity|right; eauto|].
  rewrite Hp, Hc, H1, H2, Hn. f_equal; by rewrite <- ?app_assoc.
Qed.

Lemma pod_run_timeout :
  deadline_passes w ->
  fetch_url_pod env now url w =
  {| issued := calls (watching_pod env (pod_name_at now) url) ++
               cancel_of (handle_after (within (5 * 60 * 1000) 0 (events w)) None);
     outcome := Throws (Some (Error "Timeout")) |}.
Proof.
  intros Hq.
  unfold fetch_url_pod. rewrite created. cbv zeta.
  destruct (schedule_within (5 * 60 * 1000) 0 (events w)) as [late ->].
  edestruct (await_settle on_event_pod (within (5 * 60 * 1000) 0 (events w)) TimerExpired)
    as (s1 & s' & -> & _ & H1 & H2 & _ & _ & Hp & Hc & _);
    [exact Hq|reflexivity|reflexivity|by left|].
  by rewrite Hp, Hc, H1, H2.
Qed.

Lemma job_run_timeout :
  deadline_passes w ->
  fetch_url_job env now url w =
  {| issued := calls (watching_job env (job_name_at now) url) ++
               cancel_of (handle_after (within (5 * 60 * 1000) 0 (events w)) None);
     outcome := Throws (Some (Error "Timeout")) |}.
Proof.
  intros Hq.
  unfold fetch_url_job. rewrite created. cbv zeta.
  destruct (schedule_within (5 * 60 * 1000) 0 (events w)) as [late ->].
  edestruct (await_settle on_event_job (within (5 * 60 * 1000) 0 (events w)) TimerExpired)
    as (s1 & s' & -> & _ & H1 & H2 & _ & _ & Hp & Hc & _);
    [exact Hq|reflexivity|reflexivity|by left|].
  by rewrite Hp, Hc, H1, H2.
Qed.

Lemma pod_run_stream_error pre err :
  stream_fails w pre err ->
  fetch_url_pod env now url w =
  {| issued := calls (watching_pod env (pod_name_at now) url) ++ [clearTimeout];
     outcome := Throws err |}.
Proof.
  intros ((post & Hw) & Hq & Ht).
  unfold fetch_url_pod. rewrite created. cbv zeta.
  destruct (schedule_within (5 * 60 * 1000) 0 (events w)) as [late ->].
  rewrite Hw, map_app, <- app_assoc, map_cons, <- app_comm_cons.
  edestruct (await_settle on_event_pod pre (FromCluster (StreamDone err)))
    as (s1 & s' & -> & _ & H1 & H2 & _ & _ & _ & Hp & Hc & _);
    [exact Hq|reflexivity|reflexivity|right; eexists; split; [done|by apply bool_decide_eq_true]|].
  by rewrite Hp, Hc, H1.
Qed.

Lemma job_run_stream_error pre err :
  stream_fails w pre err ->
  fetch_url_job env now url w =
  {| issued := calls (watching_job env (job_name_at now) url) ++ [clearTimeout];
     outcome := Throws err |}.
Proof.
  intros ((post & Hw) & Hq & Ht).
  unfold fetch_url_job. rewrite created. cbv zeta.
  destruct (schedule_within (5 * 60 * 1000) 0 (events w)) as [late ->].
  rewrite Hw, map_app, <- app_assoc, map_cons, <- app_comm_cons.
  edestruct (await_settle on_event_job pre (FromCluster (StreamDone err)))
    as (s1 & s' & -> & _ & H1 & H2 & _ & _ & _ & Hp & Hc & _);
    [exact Hq|reflexivity|reflexivity|right; eexists; split; [done|by apply bool_decide_eq_true]|].
  by rewrite Hp, Hc, H1.
Qed.

End Runs.

(** ** The shape of every run *)

Section Shapes.

Variable env : gmap string string.
Variables (now : N) (url : string) (w : World).
Hypothesis created : create_result w = None.

(** A run of the single-pod handler issues the create request, arms the
    timer, starts the watch, then only what the watch callbacks issue, and,
    when it returns, one log read followed by one deletion. *)
Lemma pod_run_shape :
  exists extra tail,
    issued (fetch_url_pod env now url w) =
      calls (watching_pod env (pod_name_at now) url) ++ extra ++ tail /\
    Forall (fun c => by_watch c = true) extra /\
    ((tail = [] /\ exists err, outcome (fetch_url_pod env now url w) = Throws err) \/
     (tail = [ readNamespacedPodLog (pod_name_at now) (NAMESPACE env) "fetcher";
               deleteNamespacedPod (pod_name_at now) (NAMESPACE env) ] /\
      exists r, outcome (fetch_url_pod env now url w) = Returns r)).
Proof.
  destruct (watch_settles on_event_pod (watching_pod env (pod_name_at now) url)
              (events w) (5 * 60 * 1000) eq_refl eq_refl)
    as (ev & s' & pre & s1 & Ha & _ & _ & _ & _ & Hs & _).
  apply (settled_by_settled on_event_pod) in Hs.
  destruct (watch_calls on_event_pod (watching_pod env (pod_name_at now) url)
              _ _ eq_refl eq_refl ev s' Ha)
    as (extra & Hc & Hx).
  unfold fetch_url_pod. rewrite created. cbv zeta. rewrite Ha.
  exists extra.
  destruct (promise s') eqn:Hp; [done| |]; simpl issued; simpl outcome; rewrite Hc.
  - eexists. rewrite <- app_assoc. split; [done|]. split; [done|]. right. eauto.
  - exists []. rewrite app_nil_r. split; [done|]. split; [done|]. left. eauto.
Qed.

(** The job handler: the same, but its tail is the log read alone. *)
Lemma job_run_shape :
  exists extra tail,
    issued (fetch_url_job env now url w) =
      calls (watching_job env (job_name_at now) url) ++ extra ++ tail /\
    Forall (fun c => by_watch c = true) extra /\
    ((tail = [] /\ exists err, outcome (fetch_url_job env now url w) = Throws err) \/
     (exists n, tail = [ readNamespacedPodLog n (NAMESPACE env) "fetcher" ]) /\
      exists r, outcome (fetch_url_job env now url w) = Returns r).
Proof.
  destruct (watch_settles on_event_job (watching_job env (job_name_at now) url)
              (events w) (5 * 60 * 1000) eq_refl eq_refl)
    as (ev & s' & pre & s1 & Ha & _ & _ & _ & _ & Hs & _).
  apply (settled_by_settled on_event_job) in Hs.
  destruct (watch_calls on_event_job (watching_job env (job_name_at now) url)
              _ _ eq_refl eq_refl ev s' Ha)
    as (extra & Hc & Hx).
  unfold fetch_url_job. rewrite created. cbv zeta. rewrite Ha.
  exists extra.
  destruct (promise s') eqn:Hp; [done| |]; simpl issued; simpl outcome; rewrite Hc.
  - eexists. rewrite <- app_assoc. split; [done|]. split; [done|]. right. eauto.
  - exists []. rewrite app_nil_r. split; [done|]. split; [done|]. left. eauto.
Qed.


End Shapes.

(** * Submission, missing phases and configuration *)

(** What a run is when the create request is rejected. *)
Lemma run_of_rejected_create env now url w err :
  create_result w = Some err ->
  fetch_url_pod env now url w =
    {| issued := [ createNamespacedPod (NAMESPACE env)
                     (podManifest (pod_name_at now) url) ];
       outcome := Throws (Some err) |} /\
  fetch_url_job env now url w =
    {| issued := [ createNamespacedJob (NAMESPACE env)
                     (jobManifest (job_name_at now) url) ];
       outcome := Throws (Some err) |}.
Proof.
  intros Hc. unfold fetch_url_pod, fetch_url_job.
  split; cbv zeta; rewrite Hc; reflexivity.
Qed.

(** C5. If the scheduler rejects the create request, the handler throws
    that very error and has issued nothing but the one create request: no
    second create, no timer, no watch, no log read, no deletion.  Both
    variants. *)
Theorem submission_error_is_final env now url w err :
  create_result w = Some err ->
  fetch_url_pod env now url w =
    {| issued := [ createNamespacedPod (NAMESPACE env)
                     (podManifest (pod_name_at now) url) ];
       outcome := Throws (Some err) |} /\
  fetch_url_job env now url w =
    {| issued := [ createNamespacedJob (NAMESPACE env)
                     (jobManifest (job_name_at now) url) ];
       outcome := Throws (Some err) |}.
Proof.
  intros Hc. unfold fetch_url_pod, fetch_url_job.
  split; cbv zeta; rewrite Hc; reflexivity.
Qed.

Lemma submission_error_is_final_witness :
  create_result world_forbidden = Some forbidden /\
  outcome (fetch_url_pod ∅ 1700000000000 "https://example.com" world_forbidden)
    = Throws (Some forbidden) /\
  length (issued (fetch_url_pod ∅ 1700000000000 "https://example.com" world_forbidden)) = 1%nat.
Proof.
  split; [reflexivity|].
  destruct (submission_error_is_final ∅ 1700000000000 "https://example.com"
              world_forbidden forbidden eq_refl) as [-> _].
  split; reflexivity.
Defined.

(** C10. A watch event whose snapshot has no status, or a status without a
    phase, makes the terminal-phase test false (the missing phase counts as
    the empty string), so in both variants the callback leaves a pending
    promise pending, the timer armed and issues nothing; and a callback
    fulfils the promise only for a phase that is exactly Succeeded or
    Failed. *)
Theorem missing_phase_keeps_watching (pod : V1Pod) (ty : string) (s : Watching) :
  (status pod = None \/ exists st, status pod = Some st /\ phase st = None) ->
  promise s = Pending ->
  is_terminal (phase_of pod) = false /\
  on_event_pod ty pod s = s /\
  on_event_job ty pod s = set_podName (name (metadata pod)) s /\
  promise (step on_event_pod s (FromCluster (PodEvent ty pod))) = Pending /\
  promise (step on_event_job s (FromCluster (PodEvent ty pod))) = Pending /\
  (forall ty' pod',
     promise (on_event_pod ty' pod' s) = Fulfilled \/
     promise (on_event_job ty' pod' s) = Fulfilled ->
     phase_of pod' = Some "Succeeded" \/ phase_of pod' = Some "Failed").
Proof.
  intros Hmiss Hp.
  assert (Hph : phase_of pod = None).
  { unfold phase_of. destruct Hmiss as [->|(st & -> & Hst)]; [done|]. exact Hst. }
  assert (Ht : is_terminal (phase_of pod) = false) by (by rewrite Hph).
  split; [exact Ht|].
  split; [unfold on_event_pod; cbv zeta; by rewrite Ht|].
  split; [unfold on_event_job; cbv zeta; by rewrite Ht|].
  split; [by apply (step_pending on_event_pod)|].
  split; [by apply (step_pending on_event_job)|].
  intros ty' pod' Hf.
  assert (Hs : is_terminal (phase_of pod') = true).
  { destruct (is_terminal (phase_of pod')) eqn:Hs; [done|]. exfalso.
    destruct Hf as [Hf|Hf].
    - apply (step_pending on_event_pod s (PodEvent ty' pod') Hp) in Hs.
      simpl in Hs. congruence.
    - apply (step_pending on_event_job s (PodEvent ty' pod') Hp) in Hs.
      simpl in Hs. congruence. }
  unfold is_terminal in Hs. apply bool_decide_eq_true in Hs.
  destruct (phase_of pod') as [ph|]; simpl in Hs.
  - apply elem_of_cons in Hs as [->|Hs]; [by left|].
    apply elem_of_cons in Hs as [->|Hs]; [by right|].
    by apply elem_of_nil in Hs.
  - exfalso. apply elem_of_cons in Hs as [Hs|Hs]; [done|].
    apply elem_of_cons in Hs as [Hs|Hs]; [done|]. by apply elem_of_nil in Hs.
Qed.

Lemma missing_phase_keeps_watching_witness :
  status (pod_without_status "fetch-pod-7") = None /\
  promise (watching_pod ∅ "fetch-pod-7" "https://example.com") = Pending /\
  on_event_pod "ADDED" (pod_without_status "fetch-pod-7")
    (watching_pod ∅ "fetch-pod-7" "https://example.com")
  = watching_pod ∅ "fetch-pod-7" "https://example.com".
Proof.
  split; [reflexivity|]. split; [reflexivity|].
  apply (missing_phase_keeps_watching (pod_without_status "fetch-pod-7") "ADDED"
           (watching_pod ∅ "fetch-pod-7" "https://example.com")
           (or_introl eq_refl) eq_refl).
Defined.

(** The timer a run arms does not depend on the environment. *)
Lemma timers_of_runs env now url w :
  create_result w = None ->
  timers_of (issued (fetch_url_pod env now url w)) = [300000%N] /\
  timers_of (issued (fetch_url_job env now url w)) = [300000%N].
Proof.
  intros Hc. split.
  - destruct (pod_run_shape env now url w Hc) as (extra & tail & -> & Hx & Ht).
    apply by_watch_filters in Hx as (_ & _ & _ & Hx).
    unfold timers_of in *. rewrite !omap_app, Hx.
    by destruct Ht as [[-> _]|[-> _]].
  - destruct (job_run_shape env now url w Hc) as (extra & tail & -> & Hx & Ht).
    apply by_watch_filters in Hx as (_ & _ & _ & Hx).
    unfold timers_of in *. rewrite !omap_app, Hx.
    by destruct Ht as [[-> _]|[[n ->] _]].
Qed.

(** C9, as stated, fails for the watch timeout: with [WATCH_TIMEOUT_MS]
    set to one second the handlers still arm the timer for 300000 ms, the
    run that needs 11.44 s is not cut short, and no environment at all
    makes the handler arm anything else. *)
Lemma timeout_not_read_from_environment :
  timers_of (issued (fetch_url_pod env_short 1700000000000 "https://example.com" world_succeeds))
    = [300000%N] /\
  timers_of (issued (fetch_url_job env_short 1700000000000 "https://example.com" world_succeeds))
    = [300000%N] /\
  outcome (fetch_url_pod env_short 1700000000000 "https://example.com" world_succeeds)
    = Returns (text_result page) /\
  ~ (exists env,
       timers_of (issued (fetch_url_pod env 1700000000000 "https://example.com" world_succeeds))
         <> [300000%N]).
Proof.
  split; [by vm_compute|]. split; [by vm_compute|]. split; [by vm_compute|].
  intros [env Hn]. apply Hn. by apply timers_of_runs.
Qed.

(** C9, amended. The namespace is read from the environment variable
    [K8S_NAMESPACE] and is ["default"] when the variable is absent (or
    empty); the watch timeout is not read from the environment: every run
    that gets past submission arms one timer, for 300000 ms (5 minutes),
    whatever the environment holds. *)
Theorem namespace_from_env_timeout_fixed env now url w :
  create_result w = None ->
  (env !! "K8S_NAMESPACE" = None -> NAMESPACE env = "default") /\
  (forall v, v <> "" -> NAMESPACE (<["K8S_NAMESPACE" := v]> env) = v) /\
  NAMESPACE (<["K8S_NAMESPACE" := ""]> env) = "default" /\
  (forall env',
     timers_of (issued (fetch_url_pod env' now url w)) = [300000%N] /\
     timers_of (issued (fetch_url_job env' now url w)) = [300000%N]) /\
  head (issued (fetch_url_pod env now url w)) =
    Some (createNamespacedPod (NAMESPACE env) (podManifest (pod_name_at now) url)) /\
  head (issued (fetch_url_job env now url w)) =
    Some (createNamespacedJob (NAMESPACE env) (jobManifest (job_name_at now) url)).
Proof.
  intros Hc. unfold NAMESPACE.
  split; [by intros ->|].
  split; [intros v Hv; rewrite lookup_insert_eq; by destruct (decide (v = ""))|].
  split; [by rewrite lookup_insert_eq|].
  split; [intros env'; by apply timers_of_runs|].
  split.
  - by destruct (pod_run_shape env now url w Hc) as (extra & tail & -> & _).
  - by destruct (job_run_shape env now url w Hc) as (extra & tail & -> & _).
Qed.

Lemma namespace_from_env_timeout_fixed_witness :
  create_result world_succeeds = None /\
  NAMESPACE env_short = "jobs" /\
  NAMESPACE ∅ = "default" /\
  timers_of (issued (fetch_url_pod env_short 1700000000000 "https://example.com" world_succeeds))
    = [300000%N].
Proof.
  destruct (namespace_from_env_timeout_fixed
              (<["WATCH_TIMEOUT_MS" := "1000"]> ∅) 1700000000000
              "https://example.com" world_succeeds eq_refl)
    as (_ & Hset & _ & Ht & _).
  destruct (namespace_from_env_timeout_fixed ∅ 1700000000000
              "https://example.com" world_succeeds eq_refl)
    as (Hdef & _).
  split; [reflexivity|].
  split; [apply Hset; discriminate|].
  split; [apply Hdef; reflexivity|].
  exact (proj1 (Ht env_short)).
Defined.

(** ** Counting requests in a run *)

(** Once the handle has been stored it stays stored. *)
Lemma handle_after_some pre req : exists req', handle_after pre (Some req) = Some req'.
Proof.
  revert req. induction pre as [|e pre IH]; intros req; [by exists req|].
  destruct e; simpl; apply IH.
Qed.

Lemma handle_after_ready pre r req :
  In (WatchReady req) pre -> exists req', handle_after pre r = Some req'.
Proof.
  revert r. induction pre as [|e pre IH]; intros r; [done|].
  intros [->|Hin]; simpl.
  - apply handle_after_some.
  - by apply IH.
Qed.

Lemma within_from_events delay elapsed tr e :
  In e (within delay elapsed tr) -> In e (map snd tr).
Proof.
  revert elapsed. induction tr as [|[gap e'] tr IH]; intros elapsed; simpl; [done|].
  destruct (decide _); [done|]. intros [->|Hin]; [by left|right; eauto].
Qed.

Lemma observed_names_in tr ty pod :
  In (PodEvent ty pod) (map snd tr) -> In (name (metadata pod)) (observed_names tr).
Proof.
  induction tr as [|[gap e] tr IH]; [done|].
  unfold observed_names in *. simpl.
  intros [->|Hin]; [by left|].
  destruct e; simpl; auto.
Qed.

(** Every run issues exactly one create request. *)
Lemma pod_creates_once env now url w :
  creates_of (issued (fetch_url_pod env now url w)) =
  [ createNamespacedPod (NAMESPACE env) (podManifest (pod_name_at now) url) ].
Proof.
  destruct (create_result w) as [err|] eqn:Hc.
  - by destruct (run_of_rejected_create env now url w err Hc) as [-> _].
  - destruct (pod_run_shape env now url w Hc) as (extra & tail & -> & Hx & Ht).
    apply by_watch_filters in Hx as (Hx & _).
    unfold creates_of in *. rewrite !filter_app, Hx.
    by destruct Ht as [[-> _]|[-> _]].
Qed.

Lemma job_creates_once env now url w :
  creates_of (issued (fetch_url_job env now url w)) =
  [ createNamespacedJob (NAMESPACE env) (jobManifest (job_name_at now) url) ].
Proof.
  destruct (create_result w) as [err|] eqn:Hc.
  - by destruct (run_of_rejected_create env now url w err Hc) as [_ ->].
  - destruct (job_run_shape env now url w Hc) as (extra & tail & -> & Hx & Ht).
    apply by_watch_filters in Hx as (Hx & _).
    unfold creates_of in *. rewrite !filter_app, Hx.
    by destruct Ht as [[-> _]|[[n ->] _]].
Qed.

(** The job handler never issues a deletion. *)
Lemma job_never_deletes env now url w :
  deletes_of (issued (fetch_url_job env now url w)) = [].
Proof.
  destruct (create_result w) as [err|] eqn:Hc.
  - by destruct (run_of_rejected_create env now url w err Hc) as [_ ->].
  - destruct (job_run_shape env now url w Hc) as (extra & tail & -> & Hx & Ht).
    apply by_watch_filters in Hx as (_ & Hx & _).
    unfold deletes_of in *. rewrite !filter_app, Hx.
    by destruct Ht as [[-> _]|[[n ->] _]].
Qed.

(** The single-pod handler deletes exactly when it returns. *)
Lemma pod_deletes_iff_returns env now url w :
  create_result w = None ->
  (deletes_of (issued (fetch_url_pod env now url w)) = [] /\
   exists err, outcome (fetch_url_pod env now url w) = Throws err) \/
  (deletes_of (issued (fetch_url_pod env now url w)) =
     [ deleteNamespacedPod (pod_name_at now) (NAMESPACE env) ] /\
   exists r, outcome (fetch_url_pod env now url w) = Returns r).
Proof.
  intros Hc.
  destruct (pod_run_shape env now url w Hc) as (extra & tail & -> & Hx & Ht).
  apply by_watch_filters in Hx as (_ & Hx & _).
  unfold deletes_of in *. rewrite !filter_app, Hx.
  destruct Ht as [[-> Ho]|[-> Ho]]; [left|right]; by split.
Qed.

(** * Cleanup, extraction and the result *)

(** C1, as stated, fails on both paths the claim names.  Single-pod
    variant, unit stuck in Pending: the create request is accepted, the
    watch promise rejects with the timeout, the handler throws and has
    issued no deletion.  Job variant, unit succeeded: the handler returns
    and has issued no deletion either. *)
Lemma cleanup_skipped :
  create_result world_stuck = None /\
  outcome (fetch_url_pod ∅ 1700000000000 "https://example.com" world_stuck)
    = Throws (Some (Error "Timeout")) /\
  count is_delete (fetch_url_pod ∅ 1700000000000 "https://example.com" world_stuck) = 0%nat /\
  create_result world_two_pods = None /\
  outcome (fetch_url_job ∅ 5 "https://example.com" world_two_pods)
    = Returns (text_result "log of fetch-job-5-fghij") /\
  count is_delete (fetch_url_job ∅ 5 "https://example.com" world_two_pods) = 0%nat.
Proof. repeat split; by vm_compute. Qed.

(** C1, amended. In the single-pod variant, every call whose watch
    resolves on a terminal phase issues exactly one deletion, of the pod it
    created, as its last request; this does not depend on whether the log
    read or the deletion itself succeeds.  The job variant never issues a
    deletion, in any world. *)
Theorem cleanup_once_after_terminal_phase env now url w pre ty pod :
  create_result w = None ->
  terminal_in_time w pre ty pod ->
  deletes_of (issued (fetch_url_pod env now url w)) =
    [ deleteNamespacedPod (pod_name_at now) (NAMESPACE env) ] /\
  count is_delete (fetch_url_pod env now url w) = 1%nat /\
  last (issued (fetch_url_pod env now url w)) =
    Some (deleteNamespacedPod (pod_name_at now) (NAMESPACE env)) /\
  (forall w', count is_delete (fetch_url_job env now url w') = 0%nat).
Proof.
  intros Hc Ht.
  assert (Hd : deletes_of (issued (fetch_url_pod env now url w)) =
               [ deleteNamespacedPod (pod_name_at now) (NAMESPACE env) ]).
  { destruct (pod_deletes_iff_returns env now url w Hc) as [[_ [err He]]|[Hd _]];
      [|exact Hd].
    rewrite (pod_run_terminal env now url w Hc pre ty pod Ht) in He. discriminate He. }
  split; [exact Hd|]. split.
  - unfold count. fold (deletes_of (issued (fetch_url_pod env now url w))).
    by rewrite Hd.
  - split.
    + rewrite (pod_run_terminal env now url w Hc pre ty pod Ht). cbn [issued].
      apply last_Some.
      exists (calls (watching_pod env (pod_name_at now) url) ++
              clearTimeout :: cancel_of (handle_after pre None) ++
              [readNamespacedPodLog (pod_name_at now) (NAMESPACE env) "fetcher"]).
      by rewrite <- app_assoc, <- app_comm_cons, <- app_assoc.
    + intros w'. unfold count.
      fold (deletes_of (issued (fetch_url_job env now url w'))).
      by rewrite job_never_deletes.
Qed.

Lemma terminal_in_time_succeeds :
  terminal_in_time world_succeeds
    [ WatchReady 1%N;
      PodEvent "ADDED" (pod_in "fetch-pod-1700000000000" (Some "Pending"));
      PodEvent "MODIFIED" (pod_in "fetch-pod-1700000000000" (Some "Running")) ]
    "MODIFIED" (pod_in "fetch-pod-1700000000000" (Some "Succeeded")).
Proof.
  split; [by exists []|]. split; [|reflexivity].
  repeat constructor.
Defined.

Lemma cleanup_once_after_terminal_phase_witness :
  create_result world_log_gone = None /\
  count is_delete (fetch_url_pod ∅ 1700000000000 "https://example.com" world_log_gone) = 1%nat.
Proof.
  split; [reflexivity|].
  exact (proj1 (proj2 (cleanup_once_after_terminal_phase ∅ 1700000000000
           "https://example.com" world_log_gone _ _ _ eq_refl terminal_in_time_succeeds))).
Defined.


Lemma terminal_in_time_fails :
  terminal_in_time world_fails
    [ WatchReady 1%N;
      PodEvent "ADDED" (pod_in "fetch-pod-1700000000000" (Some "Pending")) ]
    "MODIFIED" (pod_in "fetch-pod-1700000000000" (Some "Failed")).
Proof.
  split; [by exists []|]. split; [|reflexivity].
  repeat constructor.
Defined.


(** The worker the pod runs: with the URL as its only argument and a page
    that loads, [fetcher.js] writes the page content and a newline to its
    standard output and exits with status 0. *)
Lemma worker_writes_page n url (b : Fetcher.Browser) html :
  url <> "" ->
  Fetcher.page_content b url = fulfilled html ->
  Fetcher.close b = None ->
  exists c,
    containers (pm_spec (podManifest n url)) = [c] /\
    Fetcher.main b (Fetcher.argv_of c) =
      {| Fetcher.stdout := html +:+ Fetcher.newline; Fetcher.code := 0 |}.
Proof.
  intros Hu Hp Hcl. eexists. split; [reflexivity|].
  unfold Fetcher.main, Fetcher.argv_of, Fetcher.fetchUrl. simpl.
  destruct (decide (url = "")); [done|]. by rewrite Hp, Hcl.
Qed.

(** C6. When the log read fails after a terminal phase was seen, the
    single-pod handler does not throw: it returns one response whose text
    is ["Error retrieving logs: "] followed by the error, and it has issued
    the deletion, once, after the failed read. *)
Theorem extraction_error_becomes_result env now url w pre ty pod err :
  create_result w = None ->
  terminal_in_time w pre ty pod ->
  pod_log w (pod_name_at now) (NAMESPACE env) "fetcher" = rejected err ->
  outcome (fetch_url_pod env now url w) =
    Returns {| content := [ {| type := "text";
                               text := "Error retrieving logs: " +:+ toString err |} ] |} /\
  deletes_of (issued (fetch_url_pod env now url w)) =
    [ deleteNamespacedPod (pod_name_at now) (NAMESPACE env) ] /\
  exists before,
    issued (fetch_url_pod env now url w) =
      before ++ [ readNamespacedPodLog (pod_name_at now) (NAMESPACE env) "fetcher";
                  deleteNamespacedPod (pod_name_at now) (NAMESPACE env) ].
Proof.
  intros Hc Ht Hl.
  pose proof (pod_run_terminal env now url w Hc pre ty pod Ht) as Hr.
  split; [rewrite Hr; cbn [outcome]; by rewrite Hl|].
  split.
  - destruct (pod_deletes_iff_returns env now url w Hc) as [[_ [e He]]|[Hd _]];
      [|exact Hd].
    rewrite Hr in He. discriminate He.
  - rewrite Hr. cbn [issued].
    exists (calls (watching_pod env (pod_name_at now) url) ++
            clearTimeout :: cancel_of (handle_after pre None)).
    by rewrite <- app_assoc, <- app_comm_cons.
Qed.

Lemma extraction_error_becomes_result_witness :
  create_result world_log_gone = None /\
  outcome (fetch_url_pod ∅ 1700000000000 "https://example.com" world_log_gone)
    = Returns (text_result "Error retrieving logs: Error: HTTP-Code: 404").
Proof.
  split; [reflexivity|].
  exact (proj1 (extraction_error_becomes_result ∅ 1700000000000 "https://example.com"
                  world_log_gone _ _ _ not_found eq_refl terminal_in_time_succeeds eq_refl)).
Defined.

(** * The deadline and the cancellation of the watch *)

(** The watch request is still unanswered when the deadline passes: its
    handle arrives only after 310 s. *)
Definition world_unanswered : World :=
  {| create_result := None;
     events := [ (310000%N, WatchReady 1%N) ];
     pod_log := fun _ _ _ => fulfilled page;
     delete_result := fun _ _ => None |}.

(** The stream closes without an error after a minute, the unit still
    pending. *)
Definition world_stream_closes : World :=
  {| create_result := None;
     events := [ (40%N, WatchReady 1%N);
                 (900%N, PodEvent "ADDED" (pod_in "fetch-pod-1700000000000" (Some "Pending")));
                 (60000%N, StreamDone None) ];
     pod_log := fun _ _ _ => fulfilled page;
     delete_result := fun _ _ => None |}.

(** No pod event of the stream is in a terminal phase. *)
Definition no_terminal_phase (tr : list (N * ClusterEvent)) : bool :=
  forallb (fun te => match snd te with
                     | PodEvent _ pod => negb (is_terminal (phase_of pod))
                     | _ => true
                     end) tr.

(** Without a delivered handle nothing is stored in [requestRef]. *)
Lemma handle_after_none pre :
  (forall req, ~ In (WatchReady req) pre) -> handle_after pre None = None.
Proof.
  induction pre as [|e pre IH]; intros Hno; [done|].
  destruct e as [req| | |]; simpl.
  - exfalso. apply (Hno req). by left.
  - apply IH. intros req Hin. apply (Hno req). by right.
  - apply IH. intros req Hin. apply (Hno req). by right.
  - apply IH. intros req Hin. apply (Hno req). by right.
Qed.

(** C4, as stated, fails in two ways.  The watch request is unanswered for
    the whole duration: the handler throws the timeout, but
    [requestRef?.abort()] found no handle, so nothing was cancelled.  And
    the stream closes without an error after a minute: no terminal phase
    is ever observed, yet the handler throws [null], not a timeout. *)
Lemma timeout_without_cancel_or_without_timeout :
  create_result world_unanswered = None /\
  no_terminal_phase (events world_unanswered) = true /\
  outcome (fetch_url_pod ∅ 1700000000000 "https://example.com" world_unanswered)
    = Throws (Some (Error "Timeout")) /\
  count is_abort (fetch_url_pod ∅ 1700000000000 "https://example.com" world_unanswered) = 0%nat /\
  count is_abort (fetch_url_job ∅ 1700000000000 "https://example.com" world_unanswered) = 0%nat /\
  create_result world_stream_closes = None /\
  no_terminal_phase (events world_stream_closes) = true /\
  outcome (fetch_url_pod ∅ 1700000000000 "https://example.com" world_stream_closes)
    = Throws None /\
  outcome (fetch_url_job ∅ 1700000000000 "https://example.com" world_stream_closes)
    = Throws None.
Proof. repeat split; by vm_compute. Qed.

(** C4, amended. If nothing delivered within 5 minutes (300000 ms) of
    arming the timer settles the watch promise (no terminal phase among
    the pod events, and also no end or error of the stream and no rejected
    watch request, each of which ends the watch earlier with its own
    value), the handler throws [Error('Timeout')].  A unit the scheduler
    reports as Failed makes the handler return a response instead, so the
    two outcomes differ.  What the handler has issued by then is the
    create request, the timer, the watch request and the cancellation: if
    the watch request had delivered its handle, [abort] is the last
    request before the throw; if it had not, no [abort] is issued at
    all.  Both variants. *)
Theorem timeout_is_distinct_and_cancels env now url w :
  create_result w = None ->
  deadline_passes w ->
  outcome (fetch_url_pod env now url w) = Throws (Some (Error "Timeout")) /\
  outcome (fetch_url_job env now url w) = Throws (Some (Error "Timeout")) /\
  timers_of (issued (fetch_url_pod env now url w)) = [(5 * 60 * 1000)%N] /\
  (forall w' pre ty pod,
     create_result w' = None ->
     terminal_in_time w' pre ty pod ->
     phase_of pod = Some "Failed" ->
     (exists r, outcome (fetch_url_pod env now url w') = Returns r) /\
     outcome (fetch_url_pod env now url w') <> outcome (fetch_url_pod env now url w)) /\
  issued (fetch_url_pod env now url w) =
    calls (watching_pod env (pod_name_at now) url) ++
    cancel_of (handle_after (within (5 * 60 * 1000) 0 (events w)) None) /\
  issued (fetch_url_job env now url w) =
    calls (watching_job env (job_name_at now) url) ++
    cancel_of (handle_after (within (5 * 60 * 1000) 0 (events w)) None) /\
  (forall req,
     In (WatchReady req) (within (5 * 60 * 1000) 0 (events w)) ->
     exists req',
       issued (fetch_url_pod env now url w) =
         calls (watching_pod env (pod_name_at now) url) ++ [abort req'] /\
       issued (fetch_url_job env now url w) =
         calls (watching_job env (job_name_at now) url) ++ [abort req']) /\
  ((forall req, ~ In (WatchReady req) (within (5 * 60 * 1000) 0 (events w))) ->
   issued (fetch_url_pod env now url w) = calls (watching_pod env (pod_name_at now) url) /\
   issued (fetch_url_job env now url w) = calls (watching_job env (job_name_at now) url) /\
   count is_abort (fetch_url_pod env now url w) = 0%nat /\
   count is_abort (fetch_url_job env now url w) = 0%nat).
Proof.
  intros Hc Hq.
  pose proof (pod_run_timeout env now url w Hc Hq) as Hp.
  pose proof (job_run_timeout env now url w Hc Hq) as Hj.
  split; [by rewrite Hp|]. split; [by rewrite Hj|].
  split; [by apply timers_of_runs|]. split; [|split; [|split; [|split]]].
  - intros w' pre ty pod Hc' Ht _.
    rewrite (pod_run_terminal env now url w' Hc' pre ty pod Ht), Hp. cbn [outcome].
    split; [eauto|discriminate].
  - by rewrite Hp.
  - by rewrite Hj.
  - intros req Hin.
    destruct (handle_after_ready _ None req Hin) as [req' Hr].
    exists req'. by rewrite Hp, Hj, Hr.
  - intros Hno. rewrite Hp, Hj, (handle_after_none _ Hno).
    unfold count. cbn [issued cancel_of]. rewrite !app_nil_r. by repeat split.
Qed.

Lemma deadline_passes_stuck : deadline_passes world_stuck.
Proof. repeat constructor. Defined.

Lemma timeout_is_distinct_and_cancels_witness :
  create_result world_stuck = None /\
  outcome (fetch_url_pod ∅ 1700000000000 "https://example.com" world_stuck)
    = Throws (Some (Error "Timeout")) /\
  exists req,
    issued (fetch_url_pod ∅ 1700000000000 "https://example.com" world_stuck) =
      calls (watching_pod ∅ (pod_name_at 1700000000000) "https://example.com") ++ [abort req].
Proof.
  destruct (timeout_is_distinct_and_cancels ∅ 1700000000000 "https://example.com"
              world_stuck eq_refl deadline_passes_stuck)
    as (Ho & _ & _ & _ & _ & _ & Hab & _).
  split; [reflexivity|]. split; [exact Ho|].
  destruct (Hab 1%N (or_introl eq_refl)) as (req' & Hi & _).
  exists req'. exact Hi.
Defined.

(** How often the watch promise has called [abort] when it settles. *)
Lemma watch_aborts (cb : Callback) `{!WatchCallback cb} s0 tr delay :
  promise s0 = Pending -> timeout s0 = Armed -> aborts_of (calls s0) = [] ->
  exists ev s',
    await cb (schedule delay 0 tr) s0 = Some (ev, s') /\
    promise s' <> Pending /\
    aborts_of (calls s') =
      match ev with
      | TimerExpired | FromCluster (PodEvent _ _) => cancel_of (requestRef s')
      | _ => []
      end.
Proof.
  intros Hp Ht Hab.
  destruct (watch_settles cb s0 tr delay Hp Ht)
    as (ev & s' & pre & s1 & Ha & _ & H1 & _ & _ & (Hr & Hs) & _).
  exists ev, s'. split; [exact Ha|].
  rewrite <- H1 in Hab. rewrite Hr. unfold aborts_of in *.
  destruct ev as [|[req|err|ty pod|err]]; [| done | | |].
  - destruct Hs as (-> & -> & _). split; [done|].
    rewrite filter_app, Hab. by destruct (requestRef s1).
  - destruct Hs as (-> & -> & _). split; [done|]. exact Hab.
  - destruct Hs as (_ & -> & -> & _). split; [done|].
    rewrite filter_app, Hab. by destruct (requestRef s1).
  - destruct Hs as (_ & -> & -> & _). split; [done|].
    by rewrite filter_app, Hab.
Qed.

(** The number of [abort] calls of a run, by the way the watch is left. *)
Lemma aborts_by_exit env now url w :
  create_result w = None ->
  (forall pre ty pod req,
     terminal_in_time w pre ty pod -> In (WatchReady req) pre ->
     count is_abort (fetch_url_pod env now url w) = 1%nat /\
     count is_abort (fetch_url_job env now url w) = 1%nat) /\
  (forall req,
     deadline_passes w -> In (WatchReady req) (within (5 * 60 * 1000) 0 (events w)) ->
     count is_abort (fetch_url_pod env now url w) = 1%nat /\
     count is_abort (fetch_url_job env now url w) = 1%nat) /\
  (forall pre err,
     stream_fails w pre err ->
     outcome (fetch_url_pod env now url w) = Throws err /\
     count is_abort (fetch_url_pod env now url w) = 0%nat /\
     outcome (fetch_url_job env now url w) = Throws err /\
     count is_abort (fetch_url_job env now url w) = 0%nat).
Proof.
  intros Hc. split; [|split].
  - intros pre ty pod req Ht Hin.
    destruct (handle_after_ready pre None req Hin) as [req' Hr].
    rewrite (pod_run_terminal env now url w Hc pre ty pod Ht).
    rewrite (job_run_terminal env now url w Hc pre ty pod Ht).
    unfold count. cbn [issued]. by rewrite Hr.
  - intros req Hq Hin.
    destruct (handle_after_ready _ None req Hin) as [req' Hr].
    rewrite (pod_run_timeout env now url w Hc Hq).
    rewrite (job_run_timeout env now url w Hc Hq).
    unfold count. cbn [issued]. by rewrite Hr.
  - intros pre err Hf.
    rewrite (pod_run_stream_error env now url w Hc pre err Hf).
    rewrite (job_run_stream_error env now url w Hc pre err Hf).
    done.
Qed.

(** C2, as stated, fails on the stream-error exit: the watch request had
    delivered its handle, the stream then broke, the handler throws the
    stream's error, and [abort] was never called.  Both variants. *)
Lemma stream_error_exit_without_abort :
  In (WatchReady 1%N) (map snd (events world_stream_breaks)) /\
  outcome (fetch_url_pod ∅ 1700000000000 "https://example.com" world_stream_breaks)
    = Throws (Some (Error "socket hang up")) /\
  count is_abort (fetch_url_pod ∅ 1700000000000 "https://example.com" world_stream_breaks) = 0%nat /\
  outcome (fetch_url_job ∅ 1700000000000 "https://example.com" world_stream_breaks)
    = Throws (Some (Error "socket hang up")) /\
  count is_abort (fetch_url_job ∅ 1700000000000 "https://example.com" world_stream_breaks) = 0%nat.
Proof. split; [by left|]. repeat split; by vm_compute. Qed.

(** C2, amended. Every call that reaches the watch leaves it: some
    callback settles the promise.  When that callback is the one for a
    terminal pod event or the deadline timer, [abort] has been called
    exactly once if the watch request had delivered its handle, and not at
    all otherwise; when it is the stream-error callback or the rejection of
    the watch request, [abort] has not been called.  The handler calls
    [abort] nowhere else.  Both variants. *)
Theorem watch_aborted_on_terminal_event_or_deadline env now url w :
  create_result w = None ->
  (exists ev s',
     await on_event_pod (schedule (5 * 60 * 1000) 0 (events w))
       (watching_pod env (pod_name_at now) url) = Some (ev, s') /\
     promise s' <> Pending /\
     aborts_of (issued (fetch_url_pod env now url w)) = aborts_of (calls s') /\
     aborts_of (calls s') =
       match ev, requestRef s' with
       | (TimerExpired | FromCluster (PodEvent _ _)), Some req => [abort req]
       | _, _ => []
       end) /\
  (exists ev s',
     await on_event_job (schedule (5 * 60 * 1000) 0 (events w))
       (watching_job env (job_name_at now) url) = Some (ev, s') /\
     promise s' <> Pending /\
     aborts_of (issued (fetch_url_job env now url w)) = aborts_of (calls s') /\
     aborts_of (calls s') =
       match ev, requestRef s' with
       | (TimerExpired | FromCluster (PodEvent _ _)), Some req => [abort req]
       | _, _ => []
       end) /\
  (forall pre ty pod req,
     terminal_in_time w pre ty pod -> In (WatchReady req) pre ->
     count is_abort (fetch_url_pod env now url w) = 1%nat /\
     count is_abort (fetch_url_job env now url w) = 1%nat) /\
  (forall req,
     deadline_passes w -> In (WatchReady req) (within (5 * 60 * 1000) 0 (events w)) ->
     count is_abort (fetch_url_pod env now url w) = 1%nat /\
     count is_abort (fetch_url_job env now url w) = 1%nat) /\
  (forall pre err,
     stream_fails w pre err ->
     outcome (fetch_url_pod env now url w) = Throws err /\
     count is_abort (fetch_url_pod env now url w) = 0%nat /\
     outcome (fetch_url_job env now url w) = Throws err /\
     count is_abort (fetch_url_job env now url w) = 0%nat).
Proof.
  intros Hc. split; [|split; [|exact (aborts_by_exit env now url w Hc)]].
  - destruct (watch_aborts on_event_pod (watching_pod env (pod_name_at now) url)
                (events w) (5 * 60 * 1000) eq_refl eq_refl eq_refl)
      as (ev & s' & Ha & Hp & Hab).
    exists ev, s'. split; [exact Ha|]. split; [exact Hp|]. split.
    + unfold fetch_url_pod. rewrite Hc. cbv zeta. rewrite Ha.
      destruct (promise s'); cbn [issued]; unfold aborts_of; [done| |done].
      by rewrite filter_app, app_nil_r.
    + rewrite Hab. by destruct ev as [|[]], (requestRef s').
  - destruct (watch_aborts on_event_job (watching_job env (job_name_at now) url)
                (events w) (5 * 60 * 1000) eq_refl eq_refl eq_refl)
      as (ev & s' & Ha & Hp & Hab).
    exists ev, s'. split; [exact Ha|]. split; [exact Hp|]. split.
    + unfold fetch_url_job. rewrite Hc. cbv zeta. rewrite Ha.
      destruct (promise s'); cbn [issued]; unfold aborts_of; [done| |done].
      by rewrite filter_app, app_nil_r.
    + rewrite Hab. by destruct ev as [|[]], (requestRef s').
Qed.

Lemma watch_aborted_on_terminal_event_or_deadline_witness :
  create_result world_succeeds = None /\
  aborts_of (issued (fetch_url_pod ∅ 1700000000000 "https://example.com" world_succeeds))
    = [abort 1%N] /\
  exists ev s',
    await on_event_pod (schedule (5 * 60 * 1000) 0 (events world_succeeds))
      (watching_pod ∅ (pod_name_at 1700000000000) "https://example.com") = Some (ev, s') /\
    aborts_of (issued (fetch_url_pod ∅ 1700000000000 "https://example.com" world_succeeds))
      = aborts_of (calls s').
Proof.
  split; [reflexivity|]. split; [by vm_compute|].
  destruct (watch_aborted_on_terminal_event_or_deadline ∅ 1700000000000
              "https://example.com" world_succeeds eq_refl)
    as ((ev & s' & Ha & _ & Hi & _) & _).
  exists ev, s'. split; [exact Ha|exact Hi].
Defined.

(** * The identity handed to the extractor *)

(** C7, as stated, fails: in the job variant the name captured from the
    first event of the stream is [fetch-job-5-abcde], while the log is read
    from [fetch-job-5-fghij], the pod named by the event that resolved the
    watch. *)
Lemma extractor_gets_latest_name :
  head (observed_names (events world_two_pods)) = Some "fetch-job-5-abcde" /\
  reads_of (issued (fetch_url_job ∅ 5 "https://example.com" world_two_pods)) =
    [ readNamespacedPodLog "fetch-job-5-fghij" "default" "fetcher" ].
Proof. split; by vm_compute. Qed.

(** C7, amended. In the job variant the callback overwrites [podName] on
    every event, so when the log is read, it is read once, from the pod
    named by the terminal event that resolved the watch (the latest event
    at that point, a pod event of the stream delivered before the
    deadline).  The extractor is never invoked with a name that was not
    observed on the stream; when all pod events of the stream carry one
    name, that is also the name of the first event. *)
Theorem extractor_gets_terminal_event_name env now url w n ns c :
  In (readNamespacedPodLog n ns c) (issued (fetch_url_job env now url w)) ->
  reads_of (issued (fetch_url_job env now url w)) = [ readNamespacedPodLog n ns c ] /\
  ns = NAMESPACE env /\ c = "fetcher" /\
  In n (observed_names (events w)) /\
  ((forall m, In m (observed_names (events w)) ->
      head (observed_names (events w)) = Some m) ->
   head (observed_names (events w)) = Some n) /\
  exists pre ty pod,
    terminal_in_time w pre ty pod /\ n = name (metadata pod).
Proof.
  intros Hin.
  destruct (create_result w) as [err|] eqn:Hc.
  { destruct (run_of_rejected_create env now url w err Hc) as [_ Hr].
    rewrite Hr in Hin. by destruct Hin as [|[]]. }
  destruct (watch_settles on_event_job (watching_job env (job_name_at now) url)
              (events w) (5 * 60 * 1000) eq_refl eq_refl)
    as (ev & s' & pre & s1 & Ha & Hq & H1 & _ & _ & (_ & Hs) & Hw).
  destruct (watch_calls on_event_job (watching_job env (job_name_at now) url)
              _ _ eq_refl eq_refl ev s' Ha) as (extra & Hcalls & Hx).
  assert (Hno : forall n' ns' c', ~ In (readNamespacedPodLog n' ns' c') (calls s')).
  { intros n' ns' c'. rewrite Hcalls. intros [Hi|Hi]%in_app_or.
    - by destruct Hi as [|[|[|[]]]].
    - rewrite Forall_forall in Hx. apply list_elem_of_In, Hx in Hi. discriminate Hi. }
  assert (Hreads : reads_of (calls s') = []).
  { apply by_watch_filters in Hx as (_ & _ & Hx & _).
    unfold reads_of in *. by rewrite Hcalls, filter_app, Hx. }
  unfold fetch_url_job in *. rewrite Hc in *. cbv zeta in *. rewrite Ha in *.
  destruct ev as [|[req|err|ty pod|err]]; [| done | | |].
  - destruct Hs as (Hp & _). rewrite Hp in *. by apply Hno in Hin.
  - destruct Hs as (Hp & _). rewrite Hp in *. by apply Hno in Hin.
  - destruct Hs as (Hterm & Hp & _ & Hn). rewrite Hp in *. cbn [issued] in *.
    apply in_app_or in Hin as [Hin|[Heq|[]]]; [by apply Hno in Hin|].
    injection Heq as <- <- <-.
    split; [unfold reads_of in *; by rewrite filter_app, Hreads|].
    split; [done|]. split; [done|].
    destruct Hw as [post Hw]. simpl in Hn.
    assert (Hobs : In (podName s') (observed_names (events w))).
    { rewrite Hn. apply (observed_names_in _ ty).
      apply (within_from_events (5 * 60 * 1000) 0). rewrite Hw.
      apply in_or_app. right. by left. }
    split; [exact Hobs|]. split; [intros Hsame; by apply Hsame|].
    exists pre, ty, pod. split; [|exact Hn]. split; [by exists post|by split].
  - destruct Hs as (_ & Hp & _). rewrite Hp in *. by apply Hno in Hin.
Qed.

Lemma extractor_gets_terminal_event_name_witness :
  In (readNamespacedPodLog "fetch-job-5-fghij" "default" "fetcher")
     (issued (fetch_url_job ∅ 5 "https://example.com" world_two_pods)) /\
  In "fetch-job-5-fghij" (observed_names (events world_two_pods)).
Proof.
  assert (Hin : In (readNamespacedPodLog "fetch-job-5-fghij" "default" "fetcher")
                   (issued (fetch_url_job ∅ 5 "https://example.com" world_two_pods))).
  { vm_compute. tauto. }
  split; [exact Hin|].
  exact (proj1 (proj2 (proj2 (proj2
    (extractor_gets_terminal_event_name ∅ 5 "https://example.com" world_two_pods
       "fetch-job-5-fghij" "default" "fetcher" Hin))))).
Defined.

(** * Two calls *)

(** However the callbacks of two calls interleave, each closure ends up as
    if its call had run alone. *)
Lemma calls_do_not_interfere cb1 cb2 tr st :
  foldl (step_pair cb1 cb2) st tr =
  (foldl (step cb1) (fst st) (events_of first_call tr),
   foldl (step cb2) (snd st) (events_of second_call tr)).
Proof.
  revert st. induction tr as [|[[] ev] tr IH]; intros [s1 s2]; [done| |].
  - simpl. by rewrite IH.
  - simpl. by rewrite IH.
Qed.

Lemma pod_descriptor_names env now url w :
  descriptor_names (fetch_url_pod env now url w) = [pod_name_at now].
Proof.
  destruct (create_result w) as [err|] eqn:Hc.
  - by destruct (run_of_rejected_create env now url w err Hc) as [-> _].
  - destruct (pod_run_shape env now url w Hc) as (extra & tail & Hi & Hx & Ht).
    unfold descriptor_names. rewrite Hi, !omap_app.
    assert (Hn : forall l, Forall (fun c => by_watch c = true) l ->
      omap (fun c => match c with
                     | createNamespacedPod _ body => Some (pm_name body)
                     | createNamespacedJob _ body => Some (jm_name body)
                     | _ => None
                     end) l = []).
    { induction 1 as [|c l Hb _ IH]; [done|]. by destruct c. }
    rewrite (Hn _ Hx). by destruct Ht as [[-> _]|[-> _]].
Qed.

Lemma job_descriptor_names env now url w :
  descriptor_names (fetch_url_job env now url w) = [job_name_at now].
Proof.
  destruct (create_result w) as [err|] eqn:Hc.
  - by destruct (run_of_rejected_create env now url w err Hc) as [_ ->].
  - destruct (job_run_shape env now url w Hc) as (extra & tail & Hi & Hx & Ht).
    unfold descriptor_names. rewrite Hi, !omap_app.
    assert (Hn : forall l, Forall (fun c => by_watch c = true) l ->
      omap (fun c => match c with
                     | createNamespacedPod _ body => Some (pm_name body)
                     | createNamespacedJob _ body => Some (jm_name body)
                     | _ => None
                     end) l = []).
    { induction 1 as [|c l Hb _ IH]; [done|]. by destruct c. }
    rewrite (Hn _ Hx). by destruct Ht as [[-> _]|[[n ->] _]].
Qed.

(** C8, as stated, fails: two calls that read the same [Date.now()] submit
    descriptors with the same name, whatever happens to each afterwards. *)
Lemma same_instant_same_name :
  descriptor_names (fetch_url_pod ∅ 1700000000000 "https://example.com" world_succeeds)
    = ["fetch-pod-1700000000000"] /\
  descriptor_names (fetch_url_pod ∅ 1700000000000 "https://example.com" world_fails)
    = ["fetch-pod-1700000000000"] /\
  descriptor_names (fetch_url_job ∅ 1700000000000 "https://example.com" world_succeeds)
    = ["fetch-job-1700000000000"] /\
  descriptor_names (fetch_url_job ∅ 1700000000000 "https://example.com" world_stuck)
    = ["fetch-job-1700000000000"].
Proof. repeat split; by vm_compute. Qed.

(** C8, amended. Two calls that read different values of [Date.now()],
    even for the same URL, submit descriptors with different names; every
    call submits exactly one descriptor (one create request), in every
    world; and however the callbacks of the two calls interleave, the
    closure of each call changes as if the call ran alone. *)
Theorem distinct_instants_distinct_names env url now1 now2 w1 w2 :
  now1 <> now2 ->
  (exists n1 n2,
     descriptor_names (fetch_url_pod env now1 url w1) = [n1] /\
     descriptor_names (fetch_url_pod env now2 url w2) = [n2] /\
     n1 <> n2) /\
  (exists n1 n2,
     descriptor_names (fetch_url_job env now1 url w1) = [n1] /\
     descriptor_names (fetch_url_job env now2 url w2) = [n2] /\
     n1 <> n2) /\
  length (creates_of (issued (fetch_url_pod env now1 url w1))) = 1%nat /\
  length (creates_of (issued (fetch_url_job env now1 url w1))) = 1%nat /\
  (forall tr,
     foldl (step_pair on_event_pod on_event_pod)
       (watching_pod env (pod_name_at now1) url, watching_pod env (pod_name_at now2) url) tr =
     (foldl (step on_event_pod) (watching_pod env (pod_name_at now1) url)
        (events_of first_call tr),
      foldl (step on_event_pod) (watching_pod env (pod_name_at now2) url)
        (events_of second_call tr))) /\
  (forall tr,
     foldl (step_pair on_event_job on_event_job)
       (watching_job env (job_name_at now1) url, watching_job env (job_name_at now2) url) tr =
     (foldl (step on_event_job) (watching_job env (job_name_at now1) url)
        (events_of first_call tr),
      foldl (step on_event_job) (watching_job env (job_name_at now2) url)
        (events_of second_call tr))).
Proof.
  intros Hne.
  assert (Hp : pretty now1 <> pretty now2) by (intros Heq; by apply (inj pretty) in Heq).
  split; [|split; [|split; [|split; [|split]]]].
  - exists (pod_name_at now1), (pod_name_at now2).
    rewrite !pod_descriptor_names. split; [done|]. split; [done|].
    unfold pod_name_at. intros Heq. by apply (inj (String.app "fetch-pod-")) in Heq.
  - exists (job_name_at now1), (job_name_at now2).
    rewrite !job_descriptor_names. split; [done|]. split; [done|].
    unfold job_name_at. intros Heq. by apply (inj (String.app "fetch-job-")) in Heq.
  - by rewrite pod_creates_once.
  - by rewrite job_creates_once.
  - intros tr. apply calls_do_not_interfere.
  - intros tr. apply calls_do_not_interfere.
Qed.

Lemma distinct_instants_distinct_names_witness :
  (1700000000000 <> 1700000000001)%N /\
  descriptor_names (fetch_url_pod ∅ 1700000000001 "https://example.com" world_fails)
    = ["fetch-pod-1700000000001"] /\
  length (creates_of (issued (fetch_url_pod ∅ 1700000000000 "https://example.com" world_succeeds)))
    = 1%nat.
Proof.
  assert (Hne : (1700000000000 <> 1700000000001)%N) by discriminate.
  split; [exact Hne|]. split; [by vm_compute|].
  exact (proj1 (proj2 (proj2
    (distinct_instants_distinct_names ∅ "https://example.com" 1700000000000 1700000000001
       world_succeeds world_fails Hne)))).
Defined.

(** * Further properties of the handlers *)

(** The same world with another answer to the log read. *)
Definition with_pod_log (f : string -> string -> string -> Awaited string) (w : World) : World :=
  {| create_result := create_result w; events := events w;
     pod_log := f; delete_result := delete_result w |}.

(** The namespace and the object a request is addressed to. *)
Definition target_of (c : Call) : option (string * string) :=
  match c with
  | createNamespacedPod ns body => Some (ns, pm_name body)
  | readNamespacedPodLog n ns _ => Some (ns, n)
  | deleteNamespacedPod n ns => Some (ns, n)
  | _ => None
  end.

(** The worker wrote the page and then failed to close the browser: the
    unit is reported Failed, its log holds the page. *)
Definition world_fails_after_page : World :=
  {| create_result := None;
     events := events world_fails;
     pod_log := fun _ _ _ => fulfilled page;
     delete_result := fun _ _ => None |}.

(** The stream ends without an error while the unit is still pending. *)
Definition world_stream_ends : World :=
  {| create_result := None;
     events := [ (40%N, WatchReady 1%N);
                 (900%N, PodEvent "ADDED" (pod_in "fetch-pod-1700000000000" (Some "Pending")));
                 (60000%N, StreamDone None) ];
     pod_log := fun _ _ _ => fulfilled page;
     delete_result := fun _ _ => None |}.

(** The watch request itself is refused. *)
Definition world_watch_refused : World :=
  {| create_result := None;
     events := [ (25%N, WatchFailed (Some forbidden)) ];
     pod_log := fun _ _ _ => fulfilled page;
     delete_result := fun _ _ => None |}.

Section LateCallbacks.

Context (cb : Callback) `{!WatchCallback cb}.

(** Whatever the state, one callback adds only [clearTimeout] and [abort]
    to the requests, and never changes a settled promise. *)
Lemma step_adds_watch_calls s ev :
  exists extra,
    calls (step cb s ev) = calls s ++ extra /\
    Forall (fun c => by_watch c = true) extra /\
    (promise s <> Pending -> promise (step cb s ev) = promise s).
Proof.
  destruct s as [[r|] [] p n c].
  all: destruct ev as [|[req|err|ty pod|err]]; simpl; try rewrite cb_spec.
  all: unfold_callbacks.
  all: try destruct (is_terminal (phase_of pod)); try destruct (decide _).
  all: destruct p; simpl.
  all: try (exists []; rewrite app_nil_r; by repeat split).
  all: try (eexists [_]; by repeat first [split | constructor]).
  all: try (eexists [_; _]; rewrite <- app_assoc; by repeat first [split | constructor]).
Qed.

Lemma run_adds_watch_calls evs s :
  exists extra,
    calls (foldl (step cb) s evs) = calls s ++ extra /\
    Forall (fun c => by_watch c = true) extra /\
    (promise s <> Pending -> promise (foldl (step cb) s evs) = promise s).
Proof.
  revert s. induction evs as [|ev evs IH]; intros s.
  - exists []. by rewrite app_nil_r.
  - destruct (step_adds_watch_calls s ev) as (x1 & Hc1 & Hx1 & Hp1).
    destruct (IH (step cb s ev)) as (x2 & Hc2 & Hx2 & Hp2).
    exists (x1 ++ x2). simpl. rewrite Hc2, Hc1, <- app_assoc.
    split; [done|]. split; [by apply Forall_app|].
    intros Hp. rewrite Hp2; rewrite Hp1; done.
Qed.

(** The closure right before the callback that settled the promise. *)
Lemma await_last_step evs s ev s' :
  timer_guards s -> promise s = Pending ->
  await cb evs s = Some (ev, s') ->
  exists s1,
    promise s1 = Pending /\ timeout s1 = Armed /\ s' = step cb s1 ev.
Proof.
  revert s. induction evs as [|e evs IH]; intros s Hg Hp Ha; [done|].
  rewrite await_cons in Ha.
  destruct (promise (step cb s e)) eqn:Hs.
  - apply (IH (step cb s e)); auto using step_timer_guards.
  - inversion Ha; subst. exists s. auto.
  - inversion Ha; subst. exists s. auto.
Qed.

End LateCallbacks.




(** X2. When the watch stream ends before the deadline, with an error
    other than the echo of an abort or with no error at all, while no
    terminal phase has been seen, the handler throws the value the done
    callback received ([null] for a clean end): it clears the timer, reads
    no log, deletes nothing and calls no abort.  Both variants. *)
Theorem stream_end_is_thrown env now url w pre err :
  create_result w = None ->
  stream_fails w pre err ->
  fetch_url_pod env now url w =
    {| issued := calls (watching_pod env (pod_name_at now) url) ++ [clearTimeout];
       outcome := Throws err |} /\
  fetch_url_job env now url w =
    {| issued := calls (watching_job env (job_name_at now) url) ++ [clearTimeout];
       outcome := Throws err |} /\
  count is_read (fetch_url_pod env now url w) = 0%nat /\
  count is_delete (fetch_url_pod env now url w) = 0%nat /\
  count is_read (fetch_url_job env now url w) = 0%nat.
Proof.
  intros Hc Hf.
  pose proof (pod_run_stream_error env now url w Hc pre err Hf) as Hp.
  pose proof (job_run_stream_error env now url w Hc pre err Hf) as Hj.
  split; [exact Hp|]. split; [exact Hj|].
  rewrite Hp, Hj. by repeat split.
Qed.

Lemma stream_end_is_thrown_witness :
  create_result world_stream_ends = None /\
  outcome (fetch_url_pod ∅ 1700000000000 "https://example.com" world_stream_ends)
    = Throws None.
Proof.
  split; [reflexivity|].
  assert (Hf : stream_fails world_stream_ends
                 [ WatchReady 1%N;
                   PodEvent "ADDED" (pod_in "fetch-pod-1700000000000" (Some "Pending")) ]
                 None).
  { split; [by exists []|]. split; [repeat constructor|discriminate]. }
  destruct (stream_end_is_thrown ∅ 1700000000000 "https://example.com"
              world_stream_ends _ None eq_refl Hf) as [-> _].
  reflexivity.
Defined.

(** X3. When the watch request itself is rejected, the handler throws that
    rejection having issued nothing beyond the create request, the timer
    and the watch request; [.catch(reject)] does not clear the timer, which
    is still armed when the handler has thrown.  Both variants. *)
Theorem refused_watch_is_thrown env now url w pre err :
  create_result w = None ->
  (exists post, within (5 * 60 * 1000) 0 (events w) = pre ++ WatchFailed err :: post) ->
  quiet pre ->
  fetch_url_pod env now url w =
    {| issued := calls (watching_pod env (pod_name_at now) url);
       outcome := Throws err |} /\
  fetch_url_job env now url w =
    {| issued := calls (watching_job env (job_name_at now) url);
       outcome := Throws err |} /\
  (exists s',
     await on_event_pod (schedule (5 * 60 * 1000) 0 (events w))
       (watching_pod env (pod_name_at now) url) = Some (FromCluster (WatchFailed err), s') /\
     timeout s' = Armed) /\
  (exists s',
     await on_event_job (schedule (5 * 60 * 1000) 0 (events w))
       (watching_job env (job_name_at now) url) = Some (FromCluster (WatchFailed err), s') /\
     timeout s' = Armed).
Proof.
  intros Hc [post Hw] Hq.
  destruct (schedule_within (5 * 60 * 1000) 0 (events w)) as [late Hs].
  rewrite Hw, map_app, <- app_assoc, map_cons, <- app_comm_cons in Hs.
  assert (Hpod : exists s',
    await on_event_pod (schedule (5 * 60 * 1000) 0 (events w))
      (watching_pod env (pod_name_at now) url) = Some (FromCluster (WatchFailed err), s') /\
    promise s' = Rejected err /\
    calls s' = calls (watching_pod env (pod_name_at now) url) /\ timeout s' = Armed).
  { rewrite Hs.
    edestruct (await_settle on_event_pod pre (FromCluster (WatchFailed err))
                 (map FromCluster post ++ TimerExpired :: map FromCluster late)
                 (watching_pod env (pod_name_at now) url))
      as (s1 & s' & Ha & _ & H1 & _ & _ & _ & Hp & Hcalls & _);
      [exact Hq|reflexivity|reflexivity|right; eauto|].
    exists s'. split; [exact Ha|]. split; [exact Hp|]. split; [by rewrite Hcalls|].
    destruct (await_last_step on_event_pod _ (watching_pod env (pod_name_at now) url)
                _ _ (fun _ => eq_refl) eq_refl Ha)
      as ([r t p n c] & Hp1 & Ht1 & ->).
    simpl in *. subst. reflexivity. }
  assert (Hjob : exists s',
    await on_event_job (schedule (5 * 60 * 1000) 0 (events w))
      (watching_job env (job_name_at now) url) = Some (FromCluster (WatchFailed err), s') /\
    promise s' = Rejected err /\
    calls s' = calls (watching_job env (job_name_at now) url) /\ timeout s' = Armed).
  { rewrite Hs.
    edestruct (await_settle on_event_job pre (FromCluster (WatchFailed err))
                 (map FromCluster post ++ TimerExpired :: map FromCluster late)
                 (watching_job env (job_name_at now) url))
      as (s1 & s' & Ha & _ & H1 & _ & _ & _ & Hp & Hcalls & _);
      [exact Hq|reflexivity|reflexivity|right; eauto|].
    exists s'. split; [exact Ha|]. split; [exact Hp|]. split; [by rewrite Hcalls|].
    destruct (await_last_step on_event_job _ (watching_job env (job_name_at now) url)
                _ _ (fun _ => eq_refl) eq_refl Ha)
      as ([r t p n c] & Hp1 & Ht1 & ->).
    simpl in *. subst. reflexivity. }
  destruct Hpod as (sp & Hap & Hpp & Hcp & Htp).
  destruct Hjob as (sj & Haj & Hpj & Hcj & Htj).
  split; [|split; [|split; eauto]].
  - unfold fetch_url_pod. rewrite Hc. cbv zeta. by rewrite Hap, Hpp, Hcp.
  - unfold fetch_url_job. rewrite Hc. cbv zeta. by rewrite Haj, Hpj, Hcj.
Qed.

Lemma refused_watch_is_thrown_witness :
  create_result world_watch_refused = None /\
  outcome (fetch_url_pod ∅ 1700000000000 "https://example.com" world_watch_refused)
    = Throws (Some forbidden).
Proof.
  split; [reflexivity|].
  destruct (refused_watch_is_thrown ∅ 1700000000000 "https://example.com"
              world_watch_refused [] (Some forbidden) eq_refl
              (ex_intro _ [] eq_refl) (List.Forall_nil _)) as [-> _].
  reflexivity.
Defined.

(** X4. The first outcome wins: once the promise is settled, no later
    callback (a late terminal event, the stream's end, the timer) changes
    it, and late callbacks issue nothing but [clearTimeout] and [abort]:
    no log read, no deletion, no create.  The callbacks are not
    unregistered, though: a terminal event that arrives later still calls
    [clearTimeout] and [abort] again.  Both variants. *)
Theorem first_outcome_wins (s : Watching) (evs : list Event) :
  promise s <> Pending ->
  promise (foldl (step on_event_pod) s evs) = promise s /\
  promise (foldl (step on_event_job) s evs) = promise s /\
  (exists extra,
     calls (foldl (step on_event_pod) s evs) = calls s ++ extra /\
     Forall (fun c => by_watch c = true) extra) /\
  (exists extra,
     calls (foldl (step on_event_job) s evs) = calls s ++ extra /\
     Forall (fun c => by_watch c = true) extra) /\
  (forall ty pod req,
     requestRef s = Some req -> is_terminal (phase_of pod) = true ->
     calls (step on_event_pod s (FromCluster (PodEvent ty pod))) =
       calls s ++ [clearTimeout; abort req] /\
     calls (step on_event_job s (FromCluster (PodEvent ty pod))) =
       calls s ++ [clearTimeout; abort req]).
Proof.
  intros Hp.
  destruct (run_adds_watch_calls on_event_pod evs s) as (xp & Hcp & Hxp & Hpp).
  destruct (run_adds_watch_calls on_event_job evs s) as (xj & Hcj & Hxj & Hpj).
  split; [by apply Hpp|]. split; [by apply Hpj|].
  split; [by exists xp|]. split; [by exists xj|].
  intros ty pod req Hr Ht. destruct s as [r t p n c]. simpl in Hr. subst r.
  simpl. unfold on_event_job, on_event_pod. cbv zeta. rewrite Ht.
  unfold_callbacks. destruct t, p; simpl; by rewrite <- app_assoc.
Qed.

Lemma first_outcome_wins_witness :
  exists s,
    await on_event_pod (schedule (5 * 60 * 1000) 0 (events world_stuck))
      (watching_pod ∅ (pod_name_at 1700000000000) "https://example.com")
      = Some (TimerExpired, s) /\
    promise (foldl (step on_event_pod) s
               [FromCluster (PodEvent "MODIFIED"
                  (pod_in "fetch-pod-1700000000000" (Some "Succeeded")))])
      = Rejected (Some (Error "Timeout")).
Proof.
  eexists. split; [by vm_compute|].
  refine (eq_trans (proj1 (first_outcome_wins _ _ _)) _); [discriminate|reflexivity].
Defined.

(** X5. The single-pod handler addresses no object but the pod it
    submitted, in the configured namespace: the create request, the log
    read and the deletion all carry [NAMESPACE] and the descriptor's name,
    whatever names the watch events carry. *)
Theorem pod_run_targets_own_pod env now url w c t :
  In c (issued (fetch_url_pod env now url w)) ->
  target_of c = Some t ->
  t = (NAMESPACE env, pod_name_at now).
Proof.
  intros Hin Ht.
  destruct (create_result w) as [err|] eqn:Hc.
  { destruct (run_of_rejected_create env now url w err Hc) as [Hp _].
    rewrite Hp in Hin. destruct Hin as [<-|[]]. simpl in Ht. congruence. }
  destruct (pod_run_shape env now url w Hc) as (extra & tail & Hi & Hx & Htail).
  rewrite Hi in Hin.
  apply in_app_or in Hin as [Hin|Hin]; [|apply in_app_or in Hin as [Hin|Hin]].
  - destruct Hin as [<-|[<-|[<-|[]]]]; simpl in Ht; congruence.
  - rewrite Forall_forall in Hx. apply list_elem_of_In, Hx in Hin.
    destruct c; simpl in *; congruence.
  - destruct Htail as [[-> _]|[-> _]]; [done|].
    destruct Hin as [<-|[<-|[]]]; simpl in Ht; congruence.
Qed.

Lemma pod_run_targets_own_pod_witness :
  In (deleteNamespacedPod "fetch-pod-1700000000000" "default")
     (issued (fetch_url_pod ∅ 1700000000000 "https://example.com" world_succeeds)) /\
  ("default", "fetch-pod-1700000000000") = (NAMESPACE ∅, pod_name_at 1700000000000).
Proof.
  assert (Hin : In (deleteNamespacedPod "fetch-pod-1700000000000" "default")
                   (issued (fetch_url_pod ∅ 1700000000000 "https://example.com" world_succeeds))).
  { vm_compute. tauto. }
  split; [exact Hin|].
  exact (pod_run_targets_own_pod ∅ 1700000000000 "https://example.com" world_succeeds
           _ _ Hin eq_refl).
Defined.

(** X6. The response of the single-pod handler carries neither the
    terminal phase nor whether the log read failed: two calls that each saw
    a terminal phase in time return the same response as soon as the text
    made from their log reads is the same, be the phases Succeeded and
    Failed, and be one text a log and the other the description of a
    failed read. *)
Theorem response_hides_phase_and_read_failure env now url w w' pre ty pod pre' ty' pod' :
  create_result w = None ->
  create_result w' = None ->
  terminal_in_time w pre ty pod ->
  terminal_in_time w' pre' ty' pod' ->
  html_of (pod_log w (pod_name_at now) (NAMESPACE env) "fetcher") =
  html_of (pod_log w' (pod_name_at now) (NAMESPACE env) "fetcher") ->
  outcome (fetch_url_pod env now url w) = outcome (fetch_url_pod env now url w').
Proof.
  intros Hc Hc' Ht Ht' Hh.
  rewrite (pod_run_terminal env now url w Hc pre ty pod Ht).
  rewrite (pod_run_terminal env now url w' Hc' pre' ty' pod' Ht').
  cbn [outcome]. by rewrite Hh.
Qed.

Lemma response_hides_phase_and_read_failure_witness :
  phase_of (pod_in "fetch-pod-1700000000000" (Some "Succeeded")) <>
  phase_of (pod_in "fetch-pod-1700000000000" (Some "Failed")) /\
  outcome (fetch_url_pod ∅ 1700000000000 "https://example.com" world_log_gone) =
  outcome (fetch_url_pod ∅ 1700000000000 "https://example.com"
             (with_pod_log (fun _ _ _ =>
                fulfilled "Error retrieving logs: Error: HTTP-Code: 404") world_fails)).
Proof.
  split; [discriminate|].
  exact (response_hides_phase_and_read_failure ∅ 1700000000000 "https://example.com"
           world_log_gone
           (with_pod_log (fun _ _ _ =>
              fulfilled "Error retrieving logs: Error: HTTP-Code: 404") world_fails)
           _ _ _ _ _ _ eq_refl eq_refl terminal_in_time_succeeds terminal_in_time_fails
           eq_refl).
Defined.

(** X12. The requests of a call that sees a terminal phase in time, the
    watch request having delivered its handle: in this order, create, arm
    the 300000 ms timer, watch the pods of the namespace filtered by the
    descriptor's name (by [metadata.name] for the pod, by the [job-name]
    label for the job), clear the timer, abort the watch, read the log of
    container [fetcher], and (single-pod variant only) delete the pod.
    Nothing else is issued. *)
Theorem requests_of_a_completed_call env now url w pre ty pod req :
  create_result w = None ->
  terminal_in_time w pre ty pod ->
  In (WatchReady req) pre ->
  exists req',
    handle_after pre None = Some req' /\
    issued (fetch_url_pod env now url w) =
      [ createNamespacedPod (NAMESPACE env) (podManifest (pod_name_at now) url);
        setTimeout 300000;
        watch ("/api/v1/namespaces/" +:+ NAMESPACE env +:+ "/pods")
              (fieldSelector ("metadata.name=" +:+ pod_name_at now));
        clearTimeout;
        abort req';
        readNamespacedPodLog (pod_name_at now) (NAMESPACE env) "fetcher";
        deleteNamespacedPod (pod_name_at now) (NAMESPACE env) ] /\
    issued (fetch_url_job env now url w) =
      [ createNamespacedJob (NAMESPACE env) (jobManifest (job_name_at now) url);
        setTimeout 300000;
        watch ("/api/v1/namespaces/" +:+ NAMESPACE env +:+ "/pods")
              (labelSelector ("job-name=" +:+ job_name_at now));
        clearTimeout;
        abort req';
        readNamespacedPodLog (name (metadata pod)) (NAMESPACE env) "fetcher" ].
Proof.
  intros Hc Ht Hin.
  destruct (handle_after_ready pre None req Hin) as [req' Hr].
  exists req'. split; [exact Hr|].
  rewrite (pod_run_terminal env now url w Hc pre ty pod Ht).
  rewrite (job_run_terminal env now url w Hc pre ty pod Ht).
  cbn [issued]. rewrite Hr. split; reflexivity.
Qed.

Lemma requests_of_a_completed_call_witness :
  create_result world_two_pods = None /\
  exists req',
    last (issued (fetch_url_job ∅ 5 "https://example.com" world_two_pods)) =
      Some (readNamespacedPodLog "fetch-job-5-fghij" "default" "fetcher") /\
    aborts_of (issued (fetch_url_job ∅ 5 "https://example.com" world_two_pods)) = [abort req'].
Proof.
  split; [reflexivity|].
  assert (Ht : terminal_in_time world_two_pods
                 [ WatchReady 1%N;
                   PodEvent "ADDED" (pod_in "fetch-job-5-abcde" (Some "Pending"));
                   PodEvent "ADDED" (pod_in "fetch-job-5-fghij" (Some "Pending")) ]
                 "MODIFIED" (pod_in "fetch-job-5-fghij" (Some "Succeeded"))).
  { split; [by exists []|]. split; [repeat constructor|reflexivity]. }
  destruct (requests_of_a_completed_call ∅ 5 "https://example.com" world_two_pods
              _ _ _ 1%N eq_refl Ht (or_introl eq_refl)) as (req' & _ & _ & Hj).
  exists req'. rewrite Hj. split; reflexivity.
Defined.

(** * The worker *)

(** X7. [fetcher.js] exits with status 0 exactly when it was given a
    non-empty URL as [process.argv[2]], the page content could be obtained
    and the browser closed without error; its standard output is then the
    page content and a newline.  The status is otherwise 1.  The page is
    written before the browser is closed, so a failing [browser.close()]
    gives status 1 with the whole page on standard output; without a URL,
    or when the page cannot be obtained, nothing is written. *)
Theorem worker_exit_status (b : Fetcher.Browser) (argv : list string) :
  (Fetcher.code (Fetcher.main b argv) = 0%N <->
   exists url html,
     argv !! 2%nat = Some url /\ url <> "" /\
     Fetcher.page_content b url = fulfilled html /\ Fetcher.close b = None) /\
  (Fetcher.code (Fetcher.main b argv) = 0%N \/ Fetcher.code (Fetcher.main b argv) = 1%N) /\
  (forall url html,
     argv !! 2%nat = Some url -> url <> "" ->
     Fetcher.page_content b url = fulfilled html ->
     Fetcher.stdout (Fetcher.main b argv) = html +:+ Fetcher.newline) /\
  ((forall url, argv !! 2%nat = Some url -> url <> "" ->
      exists err, Fetcher.page_content b url = rejected err) ->
   Fetcher.stdout (Fetcher.main b argv) = "").
Proof.
  unfold Fetcher.main, Fetcher.fetchUrl.
  destruct (argv !! 2%nat) as [url|] eqn:Hu.
  2:{ split; [|split; [by right|split; [done|done]]].
      split; [done|]. by intros (url & html & ? & _). }
  destruct (decide (url = "")) as [->|Hne].
  { split; [|split; [by right|split; [|done]]].
    - split; [done|]. intros (url & html & [= <-] & Hn & _). done.
    - intros url html [= <-] Hn. done. }
  destruct (Fetcher.page_content b url) as [html|err] eqn:Hp.
  - destruct (Fetcher.close b) as [e|] eqn:Hcl; simpl.
    + split; [|split; [by right|split]].
      * split; [done|]. intros (u & h & [= <-] & _ & _ & Hx). done.
      * intros u h [= <-] _. rewrite Hp. by intros [= <-].
      * intros Hall. destruct (Hall url eq_refl Hne) as [err He]. congruence.
    + split; [|split; [by left|split]].
      * split; [|done]. intros _. by exists url, html.
      * intros u h [= <-] _. rewrite Hp. by intros [= <-].
      * intros Hall. destruct (Hall url eq_refl Hne) as [err He]. congruence.
  - simpl. split; [|split; [by right|split; [|done]]].
    + split; [done|]. intros (u & h & [= <-] & _ & Hx & _). congruence.
    + intros u h [= <-] _. rewrite Hp. done.
Qed.



(** * The SSE endpoints and the table of open sessions *)

Module Sse.

(** The SDK's transport object, as far as the endpoints use it: its
    [sessionId] and whether [handlePostMessage] throws on a body. *)
Record SSEServerTransport := {
  sessionId : string;
  handlePostMessage : string -> option JsError
}.

(** What an endpoint sends itself: [res.status(code).send(text)]. *)
Record Reply := { status_code : N; sent : string }.

(** The property names a plain object inherits from [Object.prototype];
    [transports] is created as [{}]. *)
Definition inherited_names : list string :=
  [ "constructor"; "__defineGetter__"; "__defineSetter__"; "hasOwnProperty";
    "__lookupGetter__"; "__lookupSetter__"; "isPrototypeOf";
    "propertyIsEnumerable"; "toString"; "valueOf"; "__proto__"; "toLocaleString" ].

(** The value of [transports[key]]: an own property (a transport), an
    inherited member of [Object.prototype] (truthy, but no transport), or
    [undefined]. *)
Inductive Property :=
  | own (transport : SSEServerTransport)
  | inherited
  | undefined.

(** [transports[key]]; the own properties are the finite map. *)
Definition get (transports : gmap string SSEServerTransport) (key : string) : Property :=
  match transports !! key with
  | Some transport => own transport
  | None => if decide (key ∈ inherited_names) then inherited else undefined
  end.

(** [app.get('/sse', ...)]: [created] is the outcome of
    [new SSEServerTransport('/messages', res)], [connected] that of
    [server.connect(transport)].  The transport is stored and the close
    handler registered before the connection is attempted; when it fails,
    [res.status(500).send(...)] ends the response, its ['close'] event
    fires and the handler removes the entry again. *)
Definition sse (created : Awaited SSEServerTransport) (connected : option JsError)
    (transports : gmap string SSEServerTransport)
    : gmap string SSEServerTransport * option Reply :=
  match created with
  | rejected _ =>
      (transports, Some {| status_code := 500; sent := "SSE setup failed" |})
  | fulfilled transport =>
      let transports := <[sessionId transport := transport]> transports in
      match connected with
      | None => (transports, None)
      | Some _ =>
          (delete (sessionId transport) transports,
           Some {| status_code := 500; sent := "SSE setup failed" |})
      end
  end.

(** [res.on('close', () => { delete transports[transport.sessionId] })] *)
Definition on_close (transport : SSEServerTransport)
    (transports : gmap string SSEServerTransport) : gmap string SSEServerTransport :=
  delete (sessionId transport) transports.

(** [app.post('/messages', ...)]: [query] is [req.query.sessionId], which is
    [undefined] when the parameter is absent and then names the property
    ["undefined"].  Calling [handlePostMessage] on an inherited member
    throws inside the [try]. *)
Definition messages (query : option string) (body : string)
    (transports : gmap string SSEServerTransport) : option Reply :=
  match get transports (default "undefined" query) with
  | undefined =>
      Some {| status_code := 400; sent := "No transport found for sessionId" |}
  | inherited =>
      Some {| status_code := 500; sent := "Message error" |}
  | own transport =>
      match handlePostMessage transport body with
      | None => None
      | Some _ => Some {| status_code := 500; sent := "Message error" |}
      end
  end.

(** What reaches the server. *)
Inductive Incoming :=
  | GetSse (created : Awaited SSEServerTransport) (connected : option JsError)
  | Closed (transport : SSEServerTransport)
  | PostMessages (query : option string) (body : string).

Definition serve (transports : gmap string SSEServerTransport) (rq : Incoming)
    : gmap string SSEServerTransport :=
  match rq with
  | GetSse created connected => fst (sse created connected transports)
  | Closed transport => on_close transport transports
  | PostMessages _ _ => transports
  end.

(** The request opens a session with this id. *)
Definition opens (sid : string) (rq : Incoming) : Prop :=
  match rq with
  | GetSse (fulfilled transport) _ => sessionId transport = sid
  | _ => False
  end.

(** The request is the close of a connection with this id. *)
Definition closes (sid : string) (rq : Incoming) : Prop :=
  match rq with
  | Closed transport => sessionId transport = sid
  | _ => False
  end.

(** The ids are those the SDK draws ([randomUUID()]): none is a property
    name of [Object.prototype], so storing a transport creates or replaces
    an own property. *)
Definition sdk_ids (tr : list Incoming) : Prop :=
  Forall (fun rq => forall sid, opens sid rq -> sid ∉ inherited_names) tr.

(** Two sessions; the second one's transport rejects every message. *)
Definition session_a : SSEServerTransport :=
  {| sessionId := "3f2b8c1e-0d4a-4e6f-9a52-7c1d2e3f4a5b";
     handlePostMessage := fun _ => None |}.

Definition session_b : SSEServerTransport :=
  {| sessionId := "b7e1d9a0-52c3-4f8e-8d11-0a9b8c7d6e5f";
     handlePostMessage := fun _ => Some (Error "Invalid message") |}.

(** While [session_a] is open, [session_b] fails to connect, is posted
    to, and the close of its connection is seen; a POST without session id
    arrives too. *)
Definition traffic : list Incoming :=
  [ GetSse (fulfilled session_b) (Some (Error "connect failed"));
    PostMessages (Some (sessionId session_b)) "{}";
    PostMessages None "{}";
    Closed session_b ].

Ltac each_request :=
  repeat first [apply List.Forall_nil | apply List.Forall_cons].

Ltac other_id :=
  let H := fresh in
  simpl; intros H; solve [destruct H | discriminate H].

Ltac not_inherited :=
  let H := fresh in
  intros H; repeat (apply elem_of_cons in H as [H|H]; [discriminate H|]);
  by apply elem_of_nil in H.

Lemma serve_unopened tr transports sid :
  Forall (fun rq => ~ opens sid rq) tr ->
  transports !! sid = None ->
  foldl serve transports tr !! sid = None.
Proof.
  intros Hno. revert transports.
  induction Hno as [|rq tr Hrq _ IH]; intros transports Hl; [done|].
  simpl. apply IH. destruct rq as [[t|e] c| t |q b]; simpl; try done.
  - simpl in Hrq. destruct c; simpl; by rewrite ?lookup_delete_ne, lookup_insert_ne.
  - unfold on_close. destruct (decide (sessionId t = sid)) as [->|Hne].
    + by rewrite lookup_delete_eq.
    + by rewrite lookup_delete_ne.
Qed.

Lemma serve_untouched tr transports sid :
  Forall (fun rq => ~ opens sid rq /\ ~ closes sid rq) tr ->
  foldl serve transports tr !! sid = transports !! sid.
Proof.
  intros Hno. revert transports.
  induction Hno as [|rq tr [Ho Hc] _ IH]; intros transports; [done|].
  simpl. rewrite IH. destruct rq as [[t|e] c| t |q b]; simpl; try done.
  - simpl in Ho. destruct c; simpl; by rewrite ?lookup_delete_ne, lookup_insert_ne.
  - simpl in Hc. unfold on_close. by rewrite lookup_delete_ne.
Qed.

(** X9. A session whose [server.connect] succeeded is reachable from the
    moment its transport is stored until its connection closes: whatever
    else the server handles in between (other sessions opening and closing,
    any POST), [transports[sessionId]] is this transport, so a POST to
    [/messages] with this id is handed to its [handlePostMessage] and never
    answered 400; when [handlePostMessage] does not throw, the endpoint
    sends nothing itself.  A session whose [server.connect] failed is not
    reachable: the 500 "SSE setup failed" closes the connection, the entry
    is removed, and a POST with its id is answered 400. *)
Theorem session_reachable_until_closed transports transport tr body :
  sdk_ids (GetSse (fulfilled transport) None :: tr) ->
  Forall (fun rq => ~ opens (sessionId transport) rq /\
                    ~ closes (sessionId transport) rq) tr ->
  get (foldl serve transports (GetSse (fulfilled transport) None :: tr))
      (sessionId transport) = own transport /\
  messages (Some (sessionId transport)) body
    (foldl serve transports (GetSse (fulfilled transport) None :: tr)) <>
    Some {| status_code := 400; sent := "No transport found for sessionId" |} /\
  (handlePostMessage transport body = None ->
   messages (Some (sessionId transport)) body
     (foldl serve transports (GetSse (fulfilled transport) None :: tr)) = None) /\
  (forall err,
     snd (sse (fulfilled transport) (Some err) transports) =
       Some {| status_code := 500; sent := "SSE setup failed" |} /\
     messages (Some (sessionId transport)) body
       (foldl serve transports (GetSse (fulfilled transport) (Some err) :: tr)) =
       Some {| status_code := 400; sent := "No transport found for sessionId" |}).
Proof.
  intros Hids Hno.
  assert (Hl : foldl serve transports (GetSse (fulfilled transport) None :: tr)
               !! sessionId transport = Some transport).
  { simpl. rewrite (serve_untouched _ _ _ Hno). by rewrite lookup_insert_eq. }
  split; [unfold get; by rewrite Hl|].
  split; [|split].
  - unfold messages, get. simpl default. rewrite Hl.
    by destruct (handlePostMessage transport body).
  - intros Hok. unfold messages, get. simpl default. by rewrite Hl, Hok.
  - intros err. split; [done|].
    assert (Hid : sessionId transport ∉ inherited_names).
    { inversion Hids as [|rq l Hrq _]; subst. by apply Hrq. }
    unfold messages, get. simpl default. simpl foldl at 1.
    rewrite (serve_untouched _ _ _ Hno). simpl. rewrite lookup_delete_eq.
    by destruct (decide (sessionId transport ∈ inherited_names)).
Qed.

Lemma session_reachable_until_closed_witness :
  messages (Some (sessionId session_a)) "{}"
    (foldl serve ∅ (GetSse (fulfilled session_a) None :: traffic)) = None /\
  messages (Some (sessionId session_a)) "{}"
    (foldl serve ∅ (GetSse (fulfilled session_a) (Some (Error "connect failed")) :: traffic)) =
    Some {| status_code := 400; sent := "No transport found for sessionId" |}.
Proof.
  assert (Hids : sdk_ids (GetSse (fulfilled session_a) None :: traffic)).
  { each_request; intros sid; simpl; try done; intros <-; not_inherited. }
  assert (Hno : Forall (fun rq => ~ opens (sessionId session_a) rq /\
                                  ~ closes (sessionId session_a) rq) traffic).
  { each_request; split; other_id. }
  destruct (session_reachable_until_closed ∅ session_a traffic "{}" Hids Hno)
    as (_ & _ & Hok & Hfail).
  split; [exact (Hok eq_refl)|exact (proj2 (Hfail (Error "connect failed")))].
Defined.

(** X10. Once the connection of a session has closed, a POST to
    [/messages] with its id is answered 400 "No transport found for
    sessionId", whatever the server handled since, as long as no session
    was opened under the same id. *)
Theorem closed_session_is_gone transports transport tr body :
  sessionId transport ∉ inherited_names ->
  sdk_ids tr ->
  Forall (fun rq => ~ opens (sessionId transport) rq) tr ->
  messages (Some (sessionId transport)) body
    (foldl serve transports (Closed transport :: tr)) =
    Some {| status_code := 400; sent := "No transport found for sessionId" |}.
Proof.
  intros Hid _ Hno.
  assert (Hl : foldl serve transports (Closed transport :: tr)
               !! sessionId transport = None).
  { simpl. apply serve_unopened; [done|]. unfold on_close. by rewrite lookup_delete_eq. }
  unfold messages, get. simpl default. rewrite Hl.
  by destruct (decide (sessionId transport ∈ inherited_names)).
Qed.

Lemma closed_session_is_gone_witness :
  messages (Some (sessionId session_b)) "{}"
    (foldl serve ∅ (GetSse (fulfilled session_b) None :: Closed session_b ::
                    [GetSse (fulfilled session_a) None])) =
    Some {| status_code := 400; sent := "No transport found for sessionId" |}.
Proof.
  refine (closed_session_is_gone (foldl serve ∅ [GetSse (fulfilled session_b) None])
            session_b [GetSse (fulfilled session_a) None] "{}" _ _ _).
  - not_inherited.
  - each_request; intros sid; simpl; intros <-; not_inherited.
  - each_request; other_id.
Defined.

(** X11. A POST to [/messages] for an id under which no session was ever
    opened is answered 400 "No transport found for sessionId", and so is a
    POST without [sessionId] (the id is then ["undefined"]); unless the id
    is a property name of [Object.prototype], such as ["constructor"] or
    ["__proto__"]: the lookup then finds the inherited member, calling
    [handlePostMessage] on it throws, and the answer is 500 "Message
    error". *)
Theorem unknown_session_reply tr query body :
  sdk_ids tr ->
  Forall (fun rq => ~ opens (default "undefined" query) rq) tr ->
  messages query body (foldl serve ∅ tr) =
    Some (if decide (default "undefined" query ∈ inherited_names)
          then {| status_code := 500; sent := "Message error" |}
          else {| status_code := 400; sent := "No transport found for sessionId" |}).
Proof.
  intros _ Hno. unfold messages, get.
  rewrite (serve_unopened tr ∅ _ Hno (lookup_empty _)).
  by destruct (decide (default "undefined" query ∈ inherited_names)).
Qed.

Lemma unknown_session_reply_witness :
  messages (Some "constructor") "{}" (foldl serve ∅ traffic) =
    Some {| status_code := 500; sent := "Message error" |} /\
  messages None "{}" (foldl serve ∅ traffic) =
    Some {| status_code := 400; sent := "No transport found for sessionId" |}.
Proof.
  assert (Hids : sdk_ids traffic).
  { each_request; intros sid; simpl; try done; intros <-; not_inherited. }
  split.
  - refine (unknown_session_reply traffic (Some "constructor") "{}" Hids _).
    each_request; other_id.
  - refine (unknown_session_reply traffic None "{}" Hids _).
    each_request; other_id.
Defined.

End Sse.
